(** * go-utilities: configuration store and logger wrapper

    A shallow embedding of the [config], [constants] and [logger] packages.
    Go strings are byte strings and are embedded as [string]; Go maps are
    embedded as [gmap]; the process environment and the file system, which the
    code reads and writes as ambient state, are threaded explicitly. *)

From Stdlib Require Import Ascii String.
From stdpp Require Import gmap strings list fin_maps sorting.

Local Open Scope string_scope.

(** ** Package [constants] *)
Module constants.

Definition APP_DEBUG := "APP_DEBUG".
Definition APP_LOG_LEVEL := "APP_LOG_LEVEL".
Definition APP_LOG_DEV := "APP_LOG_DEV".
Definition APP_ENV := "APP_ENV".
Definition APP_PORT := "APP_PORT".
Definition APP_DB_SECRET_NAME := "APP_DB_SECRET_NAME".
Definition APP_LOG_FORMAT_ERRORS := "APP_LOG_FORMAT_ERRORS".
Definition EC2_ID := "EC2_ID".

Definition ENV_TEST := "test".
Definition ENV_DEV := "dev".
Definition ENV_STAGING := "stage".
Definition ENV_ACCEPTANCE := "acceptance".
Definition ENV_PRODUCTION := "production".

Definition ValidEnvironments : list string :=
  [ENV_DEV; ENV_TEST; ENV_STAGING; ENV_ACCEPTANCE; ENV_PRODUCTION].

Definition TruthyValues : list string :=
  ["1"; "t"; "T"; "TRUE"; "true"; "True"; "0"; "f"; "F"; "FALSE"].

Definition LOG_LEVEL_ERROR := "error".
Definition LOG_LEVEL_WARN := "warn".
Definition LOG_LEVEL_INFO := "info".


End constants.

(** ** Go standard library: [strconv] *)
Module strconv.

(** [strconv.ParseBool]: a [switch] over twelve string literals; every
    other input is a syntax error and the returned boolean is [false]. *)
Definition ParseBool (str : string) : bool * option string :=
  if bool_decide (str ∈ ["1"; "t"; "T"; "true"; "TRUE"; "True"]) then (true, None)
  else if bool_decide (str ∈ ["0"; "f"; "F"; "false"; "FALSE"; "False"]) then (false, None)
  else (false, Some ("strconv.ParseBool: parsing " +:+ str +:+ ": invalid syntax")).

End strconv.

(** ** Package [logrus]: levels *)
Module logrus.

Inductive Level :=
  | PanicLevel | FatalLevel | ErrorLevel | WarnLevel
  | InfoLevel | DebugLevel | TraceLevel.

#[global] Instance Level_eq_dec : EqDecision Level.
Proof. solve_decision. Defined.

(** [strings.ToLower] on ASCII letters. *)
Definition toLower (c : ascii) : ascii :=
  let n := N_of_ascii c in
  if ((65 <=? n) && (n <=? 90))%N then ascii_of_N (n + 32) else c.

Fixpoint ToLower (s : string) : string :=
  match s with
  | "" => ""
  | String c rest => String (toLower c) (ToLower rest)
  end.

(** [logrus.ParseLevel] on ASCII input: a [switch] over the lower-cased
    name; [None] is the error. *)
Definition ParseLevel (lvl : string) : option Level :=
  match ToLower lvl with
  | "panic" => Some PanicLevel
  | "fatal" => Some FatalLevel
  | "error" => Some ErrorLevel
  | "warn" | "warning" => Some WarnLevel
  | "info" => Some InfoLevel
  | "debug" => Some DebugLevel
  | "trace" => Some TraceLevel
  | _ => None
  end.

End logrus.

(** ** Go runtime and [strings]/[sort] helpers *)
Module golang.

(** The order in which a Go [range] visits a map is unspecified: any
    enumeration of the entries. *)
Record iteration := mkIteration {
    range : ∀ A : Type, gmap string A → list (string * A);
    range_perm : ∀ A (m : gmap string A), range A m ≡ₚ map_to_list m;
  }.
Arguments range _ {A} _.

Definition default_iteration : iteration :=
  {| range := λ A, map_to_list;
     range_perm := λ A m, reflexivity (map_to_list m) |}.

(** [strings.Join]. *)
Fixpoint Join (elems : list string) (sep : string) : string :=
  match elems with
  | [] => ""
  | [x] => x
  | x :: rest => x +:+ sep +:+ Join rest sep
  end.

(** [sort.Strings]: ascending in the byte-wise lexicographic order. *)
Definition sortStrings (l : list string) : list string :=
  merge_sort String.le l.

End golang.

(** ** Go standard library: [os] and [errors]

    The process environment is a finite map from names to values, and the file
    system a finite map from paths to nodes; both are passed explicitly. *)
Module os.

(** [strings.IndexByte(s, c) >= 0]. *)
Definition hasByte (c : ascii) (s : string) : bool :=
  bool_decide (c ∈ list_ascii_of_string s).

(** [os.Getenv]: the empty string when the name is unset. *)
Definition Getenv (env : gmap string string) (key : string) : string :=
  default "" (env !! key).

(** [os.Setenv]: [EINVAL] (here [false]) and no change for an empty key, a key
    holding [=] or NUL, and a value holding NUL. *)
Definition Setenv (key value : string) (env : gmap string string)
    : gmap string string * bool :=
  if bool_decide (key = "") || hasByte "="%char key || hasByte "000"%char key
     || hasByte "000"%char value
  then (env, false)
  else (<[key := value]> env, true).

Inductive node :=
  | File (contents : string)
  | Dir.

(** Errors of the load path: an [*os.PathError], a parse error of the env-file
    parser, and [errors.Wrap(cause, msg)]. *)
Inductive error :=
  | PathError (op path msg : string)
  | ParseError (msg : string)
  | Wrap (cause : error) (msg : string).

(** The [Error()] string. *)
Fixpoint Error (e : error) : string :=
  match e with
  | PathError op path msg => op +:+ " " +:+ path +:+ ": " +:+ msg
  | ParseError msg => msg
  | Wrap cause msg => msg +:+ ": " +:+ Error cause
  end.

(** Opening a file and reading all of it. *)
Definition ReadFile (fs : gmap string node) (name : string) : error + string :=
  match fs !! name with
  | None => inl (PathError "open" name "no such file or directory")
  | Some Dir => inl (PathError "read" name "is a directory")
  | Some (File contents) => inr contents
  end.


End os.

(** ** Package [godotenv] (dependency): loading env files into the environment *)
Module godotenv.
Import os.

Section Load.
(** The env-file parser of the dependency: the text of a file is either
    refused or read as a map from keys to values. *)
Variable Parse : string → string + gmap string string.

Definition readFile (fs : gmap string node) (filename : string)
    : error + gmap string string :=
  match ReadFile fs filename with
  | inl err => inl err
  | inr contents =>
      match Parse contents with
      | inl msg => inl (ParseError msg)
      | inr envMap => inr envMap
      end
  end.

(** [loadFile]: every pair of the file is put into the environment, unless
    [overload] is off and the key was set when the file was opened; a refusal
    of [os.Setenv] is ignored. *)
Definition loadFile (fs : gmap string node) (filename : string) (overload : bool)
      (env : gmap string string) : option error * gmap string string :=
  match readFile fs filename with
  | inl err => (Some err, env)
  | inr envMap =>
      (None,
       map_fold (λ key value e,
                   if negb (bool_decide (is_Some (env !! key))) || overload
                   then (Setenv key value e).1 else e)
                env envMap)
  end.

Definition filenamesOrDefault (filenames : list string) : list string :=
  match filenames with
  | [] => [".env"]
  | _ => filenames
  end.

(** The loop of [Overload]: it returns at the first file that fails, the
    files before it having been loaded. *)
Fixpoint overloadFiles (fs : gmap string node) (filenames : list string)
      (env : gmap string string) : option error * gmap string string :=
  match filenames with
  | [] => (None, env)
  | filename :: rest =>
      match loadFile fs filename true env with
      | (Some err, env') => (Some err, env')
      | (None, env') => overloadFiles fs rest env'
      end
  end.

Definition Overload (fs : gmap string node) (filenames : list string)
      (env : gmap string string) : option error * gmap string string :=
  overloadFiles fs (filenamesOrDefault filenames) env.

End Load.

(** Whether [os.Setenv] takes the pair. *)
Definition accepted (key value : string) : bool := (Setenv key value ∅).2.

(** What the override files supply for a name: the pair of the last file
    that has the key, among the pairs the environment takes. *)
Fixpoint supplied (envMaps : list (gmap string string)) (key : string) : option string :=
  match envMaps with
  | [] => None
  | envMap :: later =>
      match supplied later key with
      | Some value => Some value
      | None =>
          match envMap !! key with
          | Some value => if accepted key value then Some value else None
          | None => None
          end
      end
  end.

(** The environment after the files have been merged over it. *)
Definition merged (envMaps : list (gmap string string)) (env : gmap string string)
      (key : string) : option string :=
  match supplied envMaps key with
  | Some value => Some value
  | None => env !! key
  end.

End godotenv.

(** ** The env-file grammar

    The parser itself belongs to the dependency. What is embedded here is the
    unquoted fragment of the [.env] convention, which is all a generated
    sample file uses: lines are separated by a line feed; a blank line and a
    line whose first non-blank byte is [#] are skipped; any other line is
    [KEY=VALUE], cut at its first [=], the key and the value stripped of
    surrounding blanks, and a [#] that follows a blank starts a comment that
    runs to the end of the line. Quoting, [export] prefixes and variable
    expansion are not part of the fragment. *)
Module envfile.

Definition LF : ascii := "010"%char.

Definition isSpace (c : ascii) : bool :=
  bool_decide (c ∈ [" "%char; "009"%char; "011"%char; "012"%char; "013"%char]).

(** [strings.Split(text, LF)]. *)
Fixpoint lines (text : string) : list string :=
  match text with
  | "" => [""]
  | String c rest =>
      if Ascii.eqb c LF then "" :: lines rest
      else match lines rest with
           | l :: ls => String c l :: ls
           | [] => [String c ""]
           end
  end.

Fixpoint trimLeft (s : string) : string :=
  match s with
  | "" => ""
  | String c rest => if isSpace c then trimLeft rest else s
  end.

Fixpoint trimRight (s : string) : string :=
  match s with
  | "" => ""
  | String c rest =>
      match trimRight rest with
      | "" => if isSpace c then "" else String c ""
      | rest' => String c rest'
      end
  end.

Definition trim (s : string) : string := trimRight (trimLeft s).

(** [strings.Cut(s, sep)] for a one-byte separator. *)
Fixpoint cut (sep : ascii) (s : string) : option (string * string) :=
  match s with
  | "" => None
  | String c rest =>
      if Ascii.eqb c sep then Some ("", rest)
      else match cut sep rest with
           | Some (before, after) => Some (String c before, after)
           | None => None
           end
  end.

(** The value without its trailing comment: [prev] is the byte before [s]. *)
Fixpoint stripComment (prev : ascii) (s : string) : string :=
  match s with
  | "" => ""
  | String c rest =>
      if Ascii.eqb c "#"%char && isSpace prev then ""
      else String c (stripComment c rest)
  end.

Inductive statement :=
  | Skipped
  | Malformed (msg : string)
  | Assign (key value : string).

Definition parseLine (line : string) : statement :=
  match trimLeft line with
  | "" => Skipped
  | String c _ as stmt =>
      if Ascii.eqb c "#"%char then Skipped
      else match cut "="%char stmt with
           | None => Malformed ("cannot separate key from value: " +:+ stmt)
           | Some (key, value) =>
               Assign (trimRight key) (trim (stripComment "="%char value))
           end
  end.

(** The statements are read in order into one map, a later assignment to a
    key replacing an earlier one; the first malformed line refuses the file. *)
Fixpoint parseLines (ls : list string) (envMap : gmap string string)
    : string + gmap string string :=
  match ls with
  | [] => inr envMap
  | line :: rest =>
      match parseLine line with
      | Skipped => parseLines rest envMap
      | Malformed msg => inl msg
      | Assign key value => parseLines rest (<[key := value]> envMap)
      end
  end.

Definition Parse (text : string) : string + gmap string string :=
  parseLines (lines text) ∅.

(** Every byte of the string satisfies [p]. *)
Fixpoint allBytes (p : ascii → bool) (s : string) : bool :=
  match s with
  | "" => true
  | String c rest => p c && allBytes p rest
  end.



Definition notByte (x : ascii) (c : ascii) : bool := negb (Ascii.eqb c x).


End envfile.

(** ** Package [ozzo-validation]: the two rules the schemas of the tests use *)
Module validation.

(** [validation.Required]: rejects the empty string. *)
Definition Required (value : string) : option string :=
  if bool_decide (value = "") then Some "cannot be blank" else None.

(** [validation.In(values...)]: the empty string passes (it is left to
    [Required]); any other value has to be one of [values]. *)
Definition In (values : list string) (value : string) : option string :=
  if bool_decide (value = "") then None
  else if bool_decide (value ∈ values) then None
  else Some "must be a valid value".

End validation.

(** ** Package [config] *)
Module config.
Import constants golang.

(** A [validation.Rule] is the capability [Validate(value) error]; a
    returned error is represented by its message, [None] is [nil]. *)
Definition Rule : Type := string → option string.

(** The [Variable] struct ([Variable] is a reserved word here, hence the
    underscore). The Go map holds a pointer per name; the store is embedded
    with one variable per name by value, as the map literals of its callers
    build it: no entry is nil and no variable is shared by two names. *)
Record Variable_ := mkVariable {
    Value : string;
    DefaultValue : string;
    Description : string;
    Rules : gmap string Rule;
  }.

Record AppConfig := mkAppConfig {
    vars : gmap string Variable_;
  }.

(** [NewConfig]: the supplied map is adopted as it is; [None] is the nil
    map, for which the freshly made empty map is kept. *)
Definition NewConfig (defaults : option (gmap string Variable_)) : AppConfig :=
  match defaults with
  | Some d => {| vars := d |}
  | None => {| vars := ∅ |}
  end.

Definition Lookup (appConf : AppConfig) (name : string) : string * bool :=
  match vars appConf !! name with
  | Some val => (Value val, true)
  | None => ("", false)
  end.

Definition Get (appConf : AppConfig) (name : string) : string :=
  (Lookup appConf name).1.

Definition IsDebug (appConf : AppConfig) : bool :=
  (strconv.ParseBool (Get appConf APP_DEBUG)).1.

Definition IsDev (appConf : AppConfig) : bool :=
  bool_decide (Get appConf APP_ENV = ENV_DEV).
Definition IsTest (appConf : AppConfig) : bool :=
  bool_decide (Get appConf APP_ENV = ENV_TEST).
Definition IsStaging (appConf : AppConfig) : bool :=
  bool_decide (Get appConf APP_ENV = ENV_STAGING).
Definition IsAcceptance (appConf : AppConfig) : bool :=
  bool_decide (Get appConf APP_ENV = ENV_ACCEPTANCE).
Definition IsProduction (appConf : AppConfig) : bool :=
  bool_decide (Get appConf APP_ENV = ENV_PRODUCTION).

Definition LogLevel (appConf : AppConfig) : string := Get appConf APP_LOG_LEVEL.
Definition Env (appConf : AppConfig) : string := Get appConf APP_ENV.
Definition Port (appConf : AppConfig) : string := Get appConf APP_PORT.
Definition DBSecretName (appConf : AppConfig) : string := Get appConf APP_DB_SECRET_NAME.
Definition Address (appConf : AppConfig) : string := ":" +:+ Get appConf APP_PORT.

Section LogLevelDecoding.
(** The level parser belongs to the logging dependency; the accessor is
    embedded over any such parser, an error being [None]. *)
Variable ParseLevel : string → option logrus.Level.

Definition LogrusLogLevel (appConf : AppConfig) : logrus.Level :=
  match ParseLevel (Get appConf APP_LOG_LEVEL) with
  | None => logrus.InfoLevel
  | Some level => level
  end.
End LogLevelDecoding.

(** What [Setup] and [Validate] return: a wrapped load error or the
    [validation.Errors] map of maps. *)
Inductive error :=
  | LoadError (e : os.error)
  | ValidationError (errs : gmap string (gmap string string)).

(** The inner loop of [ValidationErrors]: the rules of one variable that
    reject its value, with their errors. *)
Definition ruleErrors (confVar : Variable_) : gmap string string :=
  map_imap (λ _ rule, rule (Value confVar)) (Rules confVar).

(** [fmt.Sprintf("%s = %s", confKey, confVar.Value)]. *)
Definition errorKey (confKey : string) (confVar : Variable_) : string :=
  confKey +:+ " = " +:+ Value confVar.

(** The outer loop of [ValidationErrors] over the entries as visited. *)
Definition collectErrors (visited : list (string * Variable_))
    : gmap string (gmap string string) :=
  foldl (λ allErrors entry,
           let validationErrors := ruleErrors entry.2 in
           if bool_decide (0 < size validationErrors)
           then <[errorKey entry.1 entry.2 := validationErrors]> allErrors
           else allErrors)
        ∅ visited.

Section Store.
Variable Parse : string → string + gmap string string.
Variable order : iteration.

Definition ValidationErrors (appConf : AppConfig)
    : option (gmap string (gmap string string)) :=
  let allErrors := collectErrors (range order (vars appConf)) in
  if bool_decide (0 < size allErrors) then Some allErrors else None.

(** [Validate]: [Filter] drops nil entries, of which there are none, and
    answers nil for an empty map. *)
Definition Validate (appConf : AppConfig) : option error :=
  match ValidationErrors appConf with
  | Some errs => if bool_decide (0 < size errs) then Some (ValidationError errs) else None
  | None => None
  end.

(** The body of the loop of [loadEnv] for one entry. *)
Definition resolve (env : gmap string string) (confKey : string) (confVar : Variable_)
    : Variable_ :=
  let withDefault :=
    {| Value := DefaultValue confVar; DefaultValue := DefaultValue confVar;
       Description := Description confVar; Rules := Rules confVar |} in
  let val := os.Getenv env confKey in
  if bool_decide (val ≠ "")
  then {| Value := val; DefaultValue := DefaultValue withDefault;
          Description := Description withDefault; Rules := Rules withDefault |}
  else withDefault.

Definition loadEnv (appConf : AppConfig) (envfiles : list string)
      (fs : gmap string os.node) (env : gmap string string)
    : option os.error * AppConfig * gmap string string :=
  let loaded :=
    if bool_decide (0 < length envfiles)
    then godotenv.Overload Parse fs envfiles env
    else (None, env) in
  match loaded with
  | (Some err, env') =>
      (Some (os.Wrap err "Failed to overload variables with envfile(s)"), appConf, env')
  | (None, env') =>
      (None,
       {| vars := map_imap (λ confKey confVar, Some (resolve env' confKey confVar))
                           (vars appConf) |},
       env')
  end.

Definition Setup (appConf : AppConfig) (envfiles : list string)
      (fs : gmap string os.node) (env : gmap string string)
    : option error * AppConfig * gmap string string :=
  match loadEnv appConf envfiles fs env with
  | (Some err, appConf', env') =>
      (Some (LoadError (os.Wrap err "Failed to set Application Configuration")),
       appConf', env')
  | (None, appConf', env') => (Validate appConf', appConf', env')
  end.

(** The rows [CreateSampleFile] collects: name, default value, description
    and the comma-joined sorted rule names, by ascending name. *)
Definition sampleRow (appConf : AppConfig) (key : string) : list string :=
  match vars appConf !! key with
  | Some elem =>
      let constraints := sortStrings (range order (Rules elem)).*1 in
      [key; DefaultValue elem; Description elem; Join constraints ", "]
  | None => []
  end.

Definition sampleData (appConf : AppConfig) : list (list string) :=
  let keys := sortStrings (range order (vars appConf)).*1 in
  sampleRow appConf <$> keys.

Definition sampleHeader : string :=
  "# Automatically created by the application from the config object" +:+ String envfile.LF (String envfile.LF "").

(** The two lines written for one row. *)
Definition sampleEntry (elem : list string) : string :=
  "# Description: " +:+ default "" (elem !! 2) +:+ " # Constraints: " +:+ default "" (elem !! 3)
    +:+ String envfile.LF ""
    +:+ default "" (elem !! 0) +:+ "=" +:+ default "" (elem !! 1)
    +:+ String envfile.LF (String envfile.LF "").

(** Everything written through the buffered writer before the flush. *)
Definition sampleContents (appConf : AppConfig) : string :=
  foldl (λ buf elem, buf +:+ sampleEntry elem) sampleHeader (sampleData appConf).


End Store.


(** A schema in which two variables render the same error key: [DB] holds
    the value [HOST = ], which is no truthy token, and [DB = HOST] is empty
    though required. *)
Definition collidingSchema : gmap string Variable_ :=
  {[ "DB" := mkVariable "HOST = " "" "" {[ "Truthy value" := validation.In TruthyValues ]};
     "DB = HOST" := mkVariable "" "" "" {[ "Required" := validation.Required ]} ]}.

End config.

(** ** Package [github.com/pkg/errors] as the logger sees it *)
Module errors.

(** An error value through the three capabilities [parseError] uses: its
    [Error()] string, its [Unwrap()] result, and its rendering under the
    [%+v] verb. *)
#[warnings="-register-all"]
Inductive error := mkError {
    Error : string;
    Unwrap : option error;
    verbose : string;
  }.

(** A recorded call frame: function name, then file and line. *)
Definition frame : Type := string * string.

Definition LF : string := String "010"%char "".
Definition TAB : string := String "009"%char "".

(** The [%+v] rendering of a stack: each frame on two lines. *)
Definition stackTrace (frames : list frame) : string :=
  foldr (λ f acc, LF +:+ f.1 +:+ LF +:+ TAB +:+ f.2 +:+ acc) "" frames.

(** [errors.New]: a fundamental error, which has no [Unwrap]. *)
Definition New (message : string) (frames : list frame) : error :=
  {| Error := message; Unwrap := None; verbose := message +:+ stackTrace frames |}.

(** [errors.Wrap] of a non-nil error: a stack around a message around the
    cause. *)
Definition Wrap (cause : error) (message : string) (frames : list frame) : error :=
  let withMessage :=
    {| Error := message +:+ ": " +:+ Error cause;
       Unwrap := Some cause;
       verbose := verbose cause +:+ LF +:+ message |} in
  {| Error := Error withMessage;
     Unwrap := Some withMessage;
     verbose := verbose withMessage +:+ stackTrace frames |}.

End errors.

(** ** Package [logger] *)
Module logger.
Import golang.

(** Field values are scalars. *)
Inductive value :=
  | VString (s : string)
  | VInt (n : Z)
  | VBool (b : bool).

(** Go maps are references: the field maps live in a store, and a logger
    holds the address of its map, or nil. *)
Abbreviation store := (gmap positive (gmap string value)).

Inductive gormLevel := Silent | GormError | GormWarn | GormInfo.

Record gormConfig := mkGormConfig {
    SlowThreshold : Z;
    LogLevel : gormLevel;
  }.

Record Logger := mkLogger {
    log : nat;
    defaultFields : option positive;
    formatErrors : bool;
    gormConf : gormConfig;
  }.

Record Entry := mkEntry {
    entryLogger : nat;
    Data : gmap string value;
  }.

(** Reading through a map reference; ranging over and reading a nil map
    finds nothing. *)
Definition fieldsAt (h : store) (ref : option positive) : gmap string value :=
  match ref with
  | Some r => default ∅ (h !! r)
  | None => ∅
  end.

(** [m[key] = v] through a reference; [None] is the panic on a nil map. *)
Definition assign (ref : option positive) (key : string) (v : value) (h : store)
    : option store :=
  match ref with
  | Some r => Some (alter (λ m, <[key := v]> m) r h)
  | None => None
  end.

Definition isFormatErrors (env : gmap string string) : bool :=
  (strconv.ParseBool (os.Getenv env "LOG_FORMAT_ERRORS")).1.

Definition NewLogger (env : gmap string string) (log : nat)
      (defaultFields : option positive) : Logger :=
  {| log := log;
     defaultFields := defaultFields;
     formatErrors := isFormatErrors env;
     gormConf := {| SlowThreshold := 200; LogLevel := GormInfo |} |}.

Section Derive.
Variable order : iteration.

Definition NewComponentLogger (env : gmap string string) (l : Logger)
      (componentName : string) (h : store) : Logger * store :=
  let newFields :=
    foldl (λ acc entry, <[entry.1 := entry.2]> acc) (∅ : gmap string value)
          (range order (fieldsAt h (defaultFields l))) in
  let newFields := <["component" := VString componentName]> newFields in
  let ref := fresh (dom h) in
  let newLogger := NewLogger env (log l) (Some ref) in
  ({| log := log newLogger;
      defaultFields := defaultFields newLogger;
      formatErrors := formatErrors newLogger;
      gormConf := {| SlowThreshold := SlowThreshold (gormConf l);
                     LogLevel := LogLevel (gormConf l) |} |},
   <[ref := newFields]> h).

End Derive.

(** [log.WithFields(fields)] on the sink: an entry with a copy of the fields. *)
Definition sinkWithFields (log : nat) (fields : gmap string value) : Entry :=
  {| entryLogger := log; Data := fields |}.

(** [entry.WithField(key, value)]. *)
Definition entryWithField (e : Entry) (key : string) (v : value) : Entry :=
  {| entryLogger := entryLogger e; Data := <[key := v]> (Data e) |}.

(** [entry.WithFields(fields)]: the added fields win over the entry's. *)
Definition entryWithFields (e : Entry) (fields : gmap string value) : Entry :=
  {| entryLogger := entryLogger e; Data := fields ∪ Data e |}.

Definition CR : ascii := "013"%char.
Definition LF : ascii := "010"%char.
Definition TAB : ascii := "009"%char.

(** [regexp.MustCompile(`\r?\n`).ReplaceAllString(str, " --- ")]. *)
Fixpoint replaceNewlines (str : string) : string :=
  match str with
  | "" => ""
  | String c rest =>
      if Ascii.eqb c LF then " --- " +:+ replaceNewlines rest
      else if Ascii.eqb c CR then
        match rest with
        | String c' rest' =>
            if Ascii.eqb c' LF then " --- " +:+ replaceNewlines rest'
            else String c (replaceNewlines rest)
        | "" => String c ""
        end
      else String c (replaceNewlines rest)
  end.

(** [strings.ReplaceAll(str, "\t", "")]. *)
Fixpoint removeTabs (str : string) : string :=
  match str with
  | "" => ""
  | String c rest =>
      if Ascii.eqb c TAB then removeTabs rest else String c (removeTabs rest)
  end.

Definition parseError (l : Logger) (err : option errors.error) : string :=
  match err with
  | None => "<nil>"
  | Some e =>
      match errors.Unwrap e with
      | None => errors.Error e
      | Some unwrapped =>
          if formatErrors l
          then removeTabs (replaceNewlines (errors.verbose unwrapped))
          else errors.verbose unwrapped
      end
  end.

Definition Entry_ (l : Logger) (h : store) : Entry :=
  sinkWithFields (log l) (fieldsAt h (defaultFields l)).

Definition WithField (l : Logger) (h : store) (key : string) (v : value) : Entry :=
  entryWithField (sinkWithFields (log l) (fieldsAt h (defaultFields l))) key v.

Definition WithFields (l : Logger) (h : store) (fields : gmap string value) : Entry :=
  entryWithFields (sinkWithFields (log l) (fieldsAt h (defaultFields l))) fields.

Definition WithError (l : Logger) (h : store) (err : option errors.error) : Entry :=
  entryWithField (sinkWithFields (log l) (fieldsAt h (defaultFields l)))
                 "error" (VString (parseError l err)).

(** The spec's wording of the one-line form, in one pass: every newline
    sequence (a line feed, with the carriage return before it when there is
    one) becomes [" --- "], and every tab is dropped. *)
Fixpoint oneLine (str : string) : string :=
  match str with
  | "" => ""
  | String c rest =>
      if Ascii.eqb c LF then " --- " +:+ oneLine rest
      else if Ascii.eqb c TAB then oneLine rest
      else if Ascii.eqb c CR then
        match rest with
        | String c' rest' =>
            if Ascii.eqb c' LF then " --- " +:+ oneLine rest'
            else String c (oneLine rest)
        | "" => String c ""
        end
      else String c (oneLine rest)
  end.

End logger.

(** ** Package [config]: host name and table rows *)
Module config_host.
Import constants golang config.

(** [GetHostName]: [hostname] is what [os.Hostname] answers, [None] being
    its error. *)
Definition GetHostName (env : gmap string string) (hostname : option string) : string :=
  if bool_decide (os.Getenv env EC2_ID ≠ "") then os.Getenv env EC2_ID
  else match hostname with
       | Some name => name
       | None => "localhost"
       end.

Definition Hostname (appConf : AppConfig) (env : gmap string string)
    (hostname : option string) : string :=
  GetHostName env hostname.

Section Table.
Variable order : iteration.

(** The rows [DumpTable] hands to the table writer: name, description,
    comma-joined sorted rule names and default value, by ascending name. *)
Definition tableRow (appConf : AppConfig) (key : string) : list string :=
  match vars appConf !! key with
  | Some elem =>
      let constraints := sortStrings (range order (Rules elem)).*1 in
      [key; Description elem; Join constraints ", "; DefaultValue elem]
  | None => []
  end.

Definition tableData (appConf : AppConfig) : list (list string) :=
  let keys := sortStrings (range order (vars appConf)).*1 in
  tableRow appConf <$> keys.

End Table.

End config_host.

(** ** Package [logger]: constructors and the ORM adapter *)
Module logger_adapter.
Import constants golang logger.

Inductive formatter := BasicJSONFormatter | BasicTextFormatter.

(** The settings of a [logrus.Logger] the constructors touch; the output is
    always the standard output. *)
Record sink := mkSink {
  sinkLevel : logrus.Level;
  sinkReportCaller : bool;
  sinkFormatter : formatter;
}.

Definition isDevLog (env : gmap string string) : bool :=
  (strconv.ParseBool (os.Getenv env "LOG_DEV")).1.

Section Constructors.
Variable ParseLevel : string → option logrus.Level.

Definition getLogLevel (env : gmap string string) (debug : bool) : logrus.Level :=
  if debug then logrus.DebugLevel
  else match ParseLevel (os.Getenv env "LOG_LEVEL") with
       | None => logrus.InfoLevel
       | Some level => level
       end.

(** [NewCommonLogger]: [log] is the address of the new [logrus.Logger];
    the map of default fields is allocated in the store. *)
Definition NewCommonLogger (env : gmap string string) (log : nat)
    (service version environment host : string) (debug : bool) (h : store)
    : Logger * sink * store :=
  let settings :=
    {| sinkLevel := getLogLevel env debug;
       sinkReportCaller := debug;
       sinkFormatter := if isDevLog env then BasicTextFormatter else BasicJSONFormatter |} in
  let ref := fresh (dom h) in
  let fields : gmap string value :=
    <["host" := VString host]>
      (<["env" := VString environment]>
         (<["version" := VString version]>
            (<["service" := VString service]> ∅))) in
  (NewLogger env log (Some ref), settings, <[ref := fields]> h).

(** [NewCommonLoggerFromConfiguration] over the [configGetter] interface,
    given by its two methods. *)
Definition NewCommonLoggerFromConfiguration (env : gmap string string) (log : nat)
    (serviceName serviceVersion : string)
    (Get : string → string) (Hostname : string) (h : store)
    : Logger * sink * store :=
  let ok := (strconv.ParseBool (Get APP_DEBUG)).1 in
  let level := match ParseLevel (Get APP_LOG_LEVEL) with
               | None => logrus.InfoLevel
               | Some level => level
               end in
  let settings :=
    {| sinkLevel := level;
       sinkReportCaller := ok;
       sinkFormatter := if (strconv.ParseBool (Get APP_LOG_DEV)).1
                        then BasicTextFormatter else BasicJSONFormatter |} in
  let ref := fresh (dom h) in
  let fields : gmap string value :=
    <["host" := VString Hostname]>
      (<["env" := VString (Get APP_ENV)]>
         (<["version" := VString serviceVersion]>
            (<["service" := VString serviceName]> ∅))) in
  let commonLog := NewLogger env log (Some ref) in
  let gormLevel :=
    match level with
    | logrus.PanicLevel | logrus.FatalLevel | logrus.ErrorLevel => GormError
    | logrus.WarnLevel => GormWarn
    | _ => LogLevel (gormConf commonLog)
    end in
  ({| log := logger.log commonLog;
      defaultFields := defaultFields commonLog;
      formatErrors := formatErrors commonLog;
      gormConf := {| SlowThreshold := SlowThreshold (gormConf commonLog);
                     LogLevel := gormLevel |} |},
   settings, <[ref := fields]> h).

End Constructors.

(** The longest prefix without [c], and what follows it. *)
Fixpoint breakAt (c : ascii) (s : string) : string * string :=
  match s with
  | "" => ("", "")
  | String x rest =>
      if Ascii.eqb x c then ("", s)
      else let '(before, after) := breakAt c rest in (String x before, after)
  end.

(** The first submatch of the leftmost match of [inBrackets], the pattern
    [\[([^]]+)\]]: at an opening bracket the class takes every byte up to the
    next closing bracket, and the match needs at least one such byte and the
    closing bracket itself. *)
Fixpoint firstInBrackets (msg : string) : option string :=
  match msg with
  | "" => None
  | String x rest =>
      if Ascii.eqb x "["%char
      then match breakAt "]"%char rest with
           | (String g group, String _ _) => Some (String g group)
           | _ => firstInBrackets rest
           end
      else firstInBrackets rest
  end.

Definition getLogLevelFromGormMsg (msg : string) : string :=
  match firstInBrackets msg with
  | Some group =>
      if bool_decide (group = "error") then LOG_LEVEL_ERROR
      else if bool_decide (group = "warn") then LOG_LEVEL_WARN
      else LOG_LEVEL_INFO
  | None => LOG_LEVEL_INFO
  end.

(** [strings.HasPrefix] with what is left after the prefix. *)
Fixpoint cutPrefix (prefix s : string) : option string :=
  match prefix, s with
  | "", _ => Some s
  | String p prefix', String x rest =>
      if Ascii.eqb p x then cutPrefix prefix' rest else None
  | String _ _, "" => None
  end.

(** [strings.Replace(s, old, "", 1)] for a non-empty [old]. *)
Fixpoint removeFirst (old s : string) : string :=
  match cutPrefix old s with
  | Some rest => rest
  | None =>
      match s with
      | "" => ""
      | String x rest => String x (removeFirst old rest)
      end
  end.

(** One record handed to the sink: its level, the format string passed on
    with the arguments, and its fields. *)
Record logged := mkLogged {
  loggedLevel : logrus.Level;
  loggedFormat : string;
  loggedData : gmap string value;
}.

Definition Printf (l : Logger) (h : store) (format : string) : logged :=
  let level := getLogLevelFromGormMsg format in
  if bool_decide (level = LOG_LEVEL_ERROR)
  then {| loggedLevel := logrus.ErrorLevel;
          loggedFormat := removeFirst "[error] " format;
          loggedData := Data (Entry_ l h) |}
  else if bool_decide (level = LOG_LEVEL_WARN)
  then {| loggedLevel := logrus.WarnLevel;
          loggedFormat := removeFirst "[warn] " format;
          loggedData := Data (Entry_ l h) |}
  else {| loggedLevel := logrus.InfoLevel;
          loggedFormat := removeFirst "[info] " format;
          loggedData := Data (Entry_ l h) |}.

Section Adapter.
Variable order : iteration.

(** [NewGormLogger]: the adapter is made of the derived component logger,
    its writer, and a copy of that logger's adapter settings. *)
Definition NewGormLogger (env : gmap string string) (l : Logger)
    (componentName : string) (h : store) : Logger * gormConfig * store :=
  let '(gormLogger, h') := NewComponentLogger order env l componentName h in
  (gormLogger, gormConf gormLogger, h').

End Adapter.

End logger_adapter.

(** * The env-file grammar on plain text *)
Module envfile_spec.
Import envfile.

Lemma app_cons (c : ascii) (a b : string) : String c a +:+ b = String c (a +:+ b).
Proof. reflexivity. Qed.

Lemma app_assoc (a b c : string) : (a +:+ b) +:+ c = a +:+ (b +:+ c).
Proof. induction a as [|x a IH]; [reflexivity|]. by rewrite !app_cons, IH. Qed.


Lemma allBytes_app (p : ascii → bool) (a b : string) :
  allBytes p (a +:+ b) = allBytes p a && allBytes p b.
Proof.
  induction a as [|x a IH]; [reflexivity|].
  rewrite app_cons. simpl. by rewrite IH, andb_assoc.
Qed.







Lemma cut_app (sep : ascii) (key value : string) :
  allBytes (notByte sep) key = true →
  cut sep (key +:+ String sep value) = Some (key, value).
Proof.
  induction key as [|x key IH].
  - intros _. change (cut sep (String sep value) = Some ("", value)).
    simpl. by rewrite Ascii.eqb_refl.
  - intros Hall. cbn [allBytes] in Hall. apply andb_true_iff in Hall as [Hx Hkey].
    unfold notByte in Hx. apply negb_true_iff in Hx.
    rewrite app_cons. cbn [cut]. by rewrite Hx, (IH Hkey).
Qed.




End envfile_spec.

(** * Visiting a map *)
Module golang_spec.
Import golang.

(** Whatever the order, a [range] visits exactly the entries of the map. *)
Lemma elem_of_range {A} (order : iteration) (m : gmap string A) (name : string) (x : A) :
  (name, x) ∈ range order m ↔ m !! name = Some x.
Proof. by rewrite (range_perm order A m), elem_of_map_to_list. Qed.

End golang_spec.

(** * Properties of the configuration store *)
Module config_spec.
Import constants golang golang_spec config.

(** ** Lookup and Get *)

Lemma Lookup_registered (appConf : AppConfig) (name : string) (confVar : Variable_) :
  vars appConf !! name = Some confVar → Lookup appConf name = (Value confVar, true).
Proof. unfold Lookup. by intros ->. Qed.

(** C4. A name that is not registered is looked up as the empty string with
    the found flag off, and [Get] answers the empty string for it; the
    results are plain values, there is no error to raise. For every name,
    [Get] is the value component of [Lookup]. *)
Theorem Lookup_Get_unregistered (appConf : AppConfig) (name : string) :
  (vars appConf !! name = None →
     Lookup appConf name = ("", false) ∧ Get appConf name = "")
  ∧ Get appConf name = (Lookup appConf name).1.
Proof.
  split; [|reflexivity].
  intros Hnone. unfold Get, Lookup. rewrite Hnone. by split.
Qed.

Lemma Lookup_Get_unregistered_witness :
  let appConf := NewConfig (Some {[ APP_PORT := mkVariable "8080" "8080" "" ∅ ]}) in
  (vars appConf !! "Som-var-which-is-not-set" = None →
     Lookup appConf "Som-var-which-is-not-set" = ("", false)
     ∧ Get appConf "Som-var-which-is-not-set" = "")
  ∧ Get appConf "Som-var-which-is-not-set"
    = (Lookup appConf "Som-var-which-is-not-set").1.
Proof. intros appConf. apply (Lookup_Get_unregistered appConf). Defined.

(** ** Construction *)

(** C9, as the code has it. The store holds exactly the entries of the
    schema, each as godotenv.supplied: a value field the caller filled in is kept, and
    a variable is unresolved exactly when the caller left its value empty. A
    nil schema and an empty one both give a store without variables. *)
Theorem NewConfig_adopts_schema (schema : gmap string Variable_) :
  vars (NewConfig (Some schema)) = schema
  ∧ (∀ name, Lookup (NewConfig (Some schema)) name
             = match schema !! name with
               | Some confVar => (Value confVar, true)
               | None => ("", false)
               end)
  ∧ vars (NewConfig None) = ∅
  ∧ vars (NewConfig (Some ∅)) = ∅
  ∧ (∀ name, Lookup (NewConfig None) name = ("", false)).
Proof.
  repeat split; reflexivity.
Qed.

(** C9 as stated fails: a pre-populated value survives construction. *)
Lemma NewConfig_keeps_prepopulated_value :
  let schema : gmap string Variable_ :=
    {[ APP_PORT := mkVariable "9090" "8080" "TCP/IP Port" ∅ ]} in
  Lookup (NewConfig (Some schema)) APP_PORT = ("9090", true)
  ∧ ¬ (∀ name confVar,
         vars (NewConfig (Some schema)) !! name = Some confVar → Value confVar = "").
Proof.
  intros schema. split; [reflexivity|].
  intros Hall. specialize (Hall APP_PORT (mkVariable "9090" "8080" "TCP/IP Port" ∅)).
  simpl in Hall. unfold schema in Hall. rewrite lookup_singleton_eq in Hall.
  specialize (Hall eq_refl). discriminate Hall.
Qed.

(** ** Debug mode *)

(** Case analysis on membership in a list of literals. *)
Ltac literal_cases H :=
  simpl in H;
  repeat (apply elem_of_cons in H as [->|H]);
  [..|by apply elem_of_nil in H].

Lemma ParseBool_true (str : string) :
  (strconv.ParseBool str).1 = true ↔ str ∈ ["1"; "t"; "T"; "true"; "TRUE"; "True"].
Proof.
  unfold strconv.ParseBool. split.
  - repeat case_bool_decide; simpl; [done|discriminate|discriminate].
  - intros Hin. by rewrite bool_decide_eq_true_2.
Qed.

(** C5. With [APP_DEBUG] resolved to one of the first six tokens of
    [TruthyValues] debug mode is on, with one of the last four it is off; and
    debug mode is on only for the six literals [1 t T true TRUE True]
    themselves, so a token that differs from them in case alone leaves it
    off. *)
Theorem IsDebug_literal_tokens (appConf : AppConfig) :
  (Get appConf APP_DEBUG ∈ take 6 TruthyValues → IsDebug appConf = true)
  ∧ (Get appConf APP_DEBUG ∈ drop 6 TruthyValues → IsDebug appConf = false)
  ∧ (IsDebug appConf = true →
       Get appConf APP_DEBUG ∈ ["1"; "t"; "T"; "TRUE"; "true"; "True"]).
Proof.
  unfold IsDebug. split; [|split].
  - intros Hin. literal_cases Hin; reflexivity.
  - intros Hin. literal_cases Hin; reflexivity.
  - intros Htrue. apply ParseBool_true in Htrue.
    literal_cases Htrue; apply (bool_decide_unpack _); exact I.
Qed.

Lemma IsDebug_literal_tokens_witness :
  let on := NewConfig (Some {[ APP_DEBUG := mkVariable "TRUE" "true" "Debug mode" ∅ ]}) in
  let off := NewConfig (Some {[ APP_DEBUG := mkVariable "FALSE" "true" "Debug mode" ∅ ]}) in
  let folded := NewConfig (Some {[ APP_DEBUG := mkVariable "tRUE" "true" "Debug mode" ∅ ]}) in
  IsDebug on = true ∧ IsDebug off = false ∧ IsDebug folded = false.
Proof.
  intros on off folded. split; [|split].
  - apply (IsDebug_literal_tokens on). apply (bool_decide_unpack _). exact I.
  - apply (IsDebug_literal_tokens off). apply (bool_decide_unpack _). exact I.
  - reflexivity.
Defined.

(** ** Log level *)

(** C8. Whatever the level parser of the logging library answers for the
    resolved [APP_LOG_LEVEL], the accessor returns a level and no error: the
    parsed level when the string parses, the info level when it does not. *)
Theorem LogrusLogLevel_total (ParseLevel : string → option logrus.Level)
    (appConf : AppConfig) :
  (∀ level, ParseLevel (Get appConf APP_LOG_LEVEL) = Some level →
            LogrusLogLevel ParseLevel appConf = level)
  ∧ (ParseLevel (Get appConf APP_LOG_LEVEL) = None →
       LogrusLogLevel ParseLevel appConf = logrus.InfoLevel).
Proof.
  unfold LogrusLogLevel. split.
  - by intros level ->.
  - by intros ->.
Qed.

Lemma LogrusLogLevel_total_witness :
  let debug := NewConfig (Some {[ APP_LOG_LEVEL := mkVariable "debug" "debug" "" ∅ ]}) in
  let invalid :=
    NewConfig (Some {[ APP_LOG_LEVEL := mkVariable "kernel_panic" "debug" "" ∅ ]}) in
  let unset := NewConfig None in
  LogrusLogLevel logrus.ParseLevel debug = logrus.DebugLevel
  ∧ LogrusLogLevel logrus.ParseLevel invalid = logrus.InfoLevel
  ∧ LogrusLogLevel logrus.ParseLevel unset = logrus.InfoLevel.
Proof.
  intros debug invalid unset. split; [|split].
  - by apply (LogrusLogLevel_total logrus.ParseLevel debug).
  - by apply (LogrusLogLevel_total logrus.ParseLevel invalid).
  - by apply (LogrusLogLevel_total logrus.ParseLevel unset).
Defined.

(** ** Loading env files into the environment *)

Lemma Setenv_lookup (key value : string) (env : gmap string string) (k : string) :
  (os.Setenv key value env).1 !! k
  = if godotenv.accepted key value && bool_decide (key = k) then Some value else env !! k.
Proof.
  unfold godotenv.accepted, os.Setenv.
  destruct (bool_decide (key = "") || os.hasByte "=" key || os.hasByte "000" key
            || os.hasByte "000" value); simpl; [done|].
  case_bool_decide as Hk.
  - subst k. by rewrite lookup_insert_eq.
  - by rewrite lookup_insert_ne.
Qed.

Section Loading.
Variable Parse : string → string + gmap string string.
Variable fs : gmap string os.node.

Lemma loadFile_overload (filename : string) (env : gmap string string)
    (envMap : gmap string string) :
  godotenv.readFile Parse fs filename = inr envMap →
  ∃ env', godotenv.loadFile Parse fs filename true env = (None, env')
          ∧ ∀ k, env' !! k = godotenv.merged [envMap] env k.
Proof.
  intros Hread. unfold godotenv.loadFile. rewrite Hread.
  eexists. split; [reflexivity|].
  unfold godotenv.merged. simpl.
  apply (map_fold_weak_ind
           (λ (e : gmap string string) (m : gmap string string),
              ∀ k, e !! k = match match m !! k with
                                  | Some value => if godotenv.accepted k value then Some value else None
                                  | None => None
                                  end with
                            | Some value => Some value
                            | None => env !! k
                            end)).
  - intros k. by rewrite lookup_empty.
  - intros i x m e Hfresh IH k.
    rewrite orb_true_r, Setenv_lookup, IH.
    destruct (decide (i = k)) as [->|Hne].
    + rewrite lookup_insert_eq, Hfresh, bool_decide_eq_true_2, andb_true_r by done.
      by destruct (godotenv.accepted k x).
    + rewrite lookup_insert_ne, bool_decide_eq_false_2, andb_false_r by done.
      done.
Qed.

Lemma loadFile_failure (filename : string) (overload : bool) (env : gmap string string)
    (err : os.error) :
  godotenv.readFile Parse fs filename = inl err →
  godotenv.loadFile Parse fs filename overload env = (Some err, env).
Proof. intros Hread. unfold godotenv.loadFile. by rewrite Hread. Qed.

Lemma merged_cons (envMap : gmap string string) (later : list (gmap string string))
    (env env1 : gmap string string) (k : string) :
  (∀ k, env1 !! k = godotenv.merged [envMap] env k) →
  godotenv.merged later env1 k = godotenv.merged (envMap :: later) env k.
Proof.
  intros Hfirst. unfold godotenv.merged. simpl.
  destruct (godotenv.supplied later k); [done|].
  rewrite Hfirst. unfold godotenv.merged. simpl. done.
Qed.

(** The loop over the files succeeds exactly when every file is read, and
    then the later files have been godotenv.merged over the earlier ones and over the
    environment. *)
Lemma overloadFiles_success (filenames : list string) (env env' : gmap string string) :
  godotenv.overloadFiles Parse fs filenames env = (None, env') →
  ∃ envMaps,
    Forall2 (λ f m, godotenv.readFile Parse fs f = inr m) filenames envMaps
    ∧ ∀ k, env' !! k = godotenv.merged envMaps env k.
Proof.
  revert env. induction filenames as [|f rest IH]; intros env Hload; simpl in Hload.
  - injection Hload as <-. exists []. split; [constructor|done].
  - destruct (godotenv.readFile Parse fs f) as [err|envMap] eqn:Hread.
    + by rewrite (loadFile_failure _ _ _ _ Hread) in Hload.
    + destruct (loadFile_overload f env envMap Hread) as (env1 & Hf & Hlookup).
      rewrite Hf in Hload. destruct (IH _ Hload) as (envMaps & Hall & Hmerged).
      exists (envMap :: envMaps). split; [by constructor|].
      intros k. rewrite Hmerged. by apply merged_cons.
Qed.

(** It fails exactly when some file is not read, with the error of the
    first such file. *)
Lemma overloadFiles_failure (filenames : list string) (env : gmap string string) :
  Exists (λ f, ∃ err, godotenv.readFile Parse fs f = inl err) filenames →
  ∃ cause env', godotenv.overloadFiles Parse fs filenames env = (Some cause, env')
                ∧ Exists (λ f, godotenv.readFile Parse fs f = inl cause) filenames.
Proof.
  revert env. induction filenames as [|f rest IH]; intros env Hex.
  - inversion Hex.
  - simpl. destruct (godotenv.readFile Parse fs f) as [err|envMap] eqn:Hread.
    + rewrite (loadFile_failure _ _ _ _ Hread). exists err, env.
      split; [done|]. by left.
    + destruct (loadFile_overload f env envMap Hread) as (env1 & Hf & _).
      rewrite Hf. inversion Hex as [? ? [err Herr]|? ? Hrest]; subst.
      * congruence.
      * destruct (IH env1 Hrest) as (cause & env' & Hload & Hcause).
        exists cause, env'. split; [done|]. by right.
Qed.

End Loading.

(** ** Setup *)

Lemma Overload_nonempty (Parse : string → string + gmap string string)
    (fs : gmap string os.node) (envfiles : list string) (env : gmap string string) :
  envfiles ≠ [] →
  godotenv.Overload Parse fs envfiles env = godotenv.overloadFiles Parse fs envfiles env.
Proof. by destruct envfiles. Qed.

Lemma resolve_Value (env : gmap string string) (confKey : string) (confVar : Variable_) :
  Value (resolve env confKey confVar)
  = if bool_decide (os.Getenv env confKey = "") then DefaultValue confVar
    else os.Getenv env confKey.
Proof.
  unfold resolve. case_bool_decide as Hval.
  - by rewrite bool_decide_eq_false_2 by done.
  - by rewrite bool_decide_eq_true_2.
Qed.

Lemma resolve_frame (env : gmap string string) (confKey : string) (confVar : Variable_) :
  DefaultValue (resolve env confKey confVar) = DefaultValue confVar
  ∧ Description (resolve env confKey confVar) = Description confVar
  ∧ Rules (resolve env confKey confVar) = Rules confVar.
Proof. unfold resolve. by case_bool_decide. Qed.

(** When the files load, [loadEnv] resolves every entry against the
    environment the files were godotenv.merged into. *)
Lemma loadEnv_success (Parse : string → string + gmap string string)
    (appConf appConf' : AppConfig) (envfiles : list string)
    (fs : gmap string os.node) (env env' : gmap string string) :
  loadEnv Parse appConf envfiles fs env = (None, appConf', env') →
  (∃ envMaps,
     Forall2 (λ f m, godotenv.readFile Parse fs f = inr m) envfiles envMaps
     ∧ ∀ k, env' !! k = godotenv.merged envMaps env k)
  ∧ ∀ name, vars appConf' !! name = resolve env' name <$> vars appConf !! name.
Proof.
  unfold loadEnv. intros Hload.
  assert (∀ name (m : gmap string Variable_),
            map_imap (λ confKey confVar, Some (resolve env' confKey confVar)) m !! name
            = resolve env' name <$> m !! name) as Himap.
  { intros name m. rewrite map_lookup_imap. by destruct (m !! name). }
  destruct envfiles as [|f rest].
  - simpl in Hload. injection Hload as <- <-. split; [|by intros; apply Himap].
    exists []. split; [constructor|done].
  - rewrite bool_decide_eq_true_2 in Hload by (simpl; lia).
    rewrite Overload_nonempty in Hload by done.
    destruct (godotenv.overloadFiles Parse fs (f :: rest) env) as [[err|] env1] eqn:Hover;
      [discriminate Hload|].
    injection Hload as <- <-. split; [|by intros; apply Himap].
    by apply overloadFiles_success in Hover.
Qed.

(** C10. When one of the override files cannot be read or parsed, [Setup]
    returns the load error wrapped twice, first by [loadEnv] and then by
    [Setup], and the store it leaves is the store it was given: no default
    is applied, no variable is read from the environment, and the result is
    not a validation result. *)
Theorem Setup_load_failure_keeps_store (Parse : string → string + gmap string string)
    (order : iteration) (appConf : AppConfig) (envfiles : list string)
    (fs : gmap string os.node) (env : gmap string string) :
  Exists (λ f, ∃ err, godotenv.readFile Parse fs f = inl err) envfiles →
  ∃ cause env',
    Exists (λ f, godotenv.readFile Parse fs f = inl cause) envfiles
    ∧ Setup Parse order appConf envfiles fs env
      = (Some (LoadError
                 (os.Wrap (os.Wrap cause "Failed to overload variables with envfile(s)")
                          "Failed to set Application Configuration")),
         appConf, env').
Proof.
  intros Hex.
  assert (envfiles ≠ []) as Hne by (intros ->; inversion Hex).
  destruct (overloadFiles_failure Parse fs envfiles env Hex) as (cause & env' & Hload & Hcause).
  exists cause, env'. split; [done|].
  unfold Setup, loadEnv.
  rewrite bool_decide_eq_true_2 by (destruct envfiles; [done|simpl; lia]).
  rewrite Overload_nonempty, Hload by done. reflexivity.
Qed.

Lemma Setup_load_failure_keeps_store_witness :
  let appConf := NewConfig (Some {[ APP_PORT := mkVariable "" "8080" "TCP/IP Port" ∅ ]}) in
  Exists (λ f, ∃ err, godotenv.readFile envfile.Parse ∅ f = inl err) ["AfileThatDoesNotExists"]
  ∧ ∃ cause env',
      Exists (λ f, godotenv.readFile envfile.Parse ∅ f = inl cause) ["AfileThatDoesNotExists"]
      ∧ Setup envfile.Parse default_iteration appConf ["AfileThatDoesNotExists"] ∅ ∅
        = (Some (LoadError
                   (os.Wrap (os.Wrap cause "Failed to overload variables with envfile(s)")
                            "Failed to set Application Configuration")),
           appConf, env').
Proof.
  intros appConf.
  assert (Exists (λ f, ∃ err, godotenv.readFile envfile.Parse ∅ f = inl err)
                 ["AfileThatDoesNotExists"]) as Hex.
  { left. eexists. reflexivity. }
  split; [exact Hex|].
  exact (Setup_load_failure_keeps_store envfile.Parse default_iteration appConf
           ["AfileThatDoesNotExists"] ∅ ∅ Hex).
Defined.

(** The message of the error [Setup] returns for a file that does not exist. *)
Example Setup_missing_file_message :
  let appConf := NewConfig (Some {[ APP_PORT := mkVariable "" "8080" "TCP/IP Port" ∅ ]}) in
  match (Setup envfile.Parse default_iteration appConf ["AfileThatDoesNotExists"] ∅ ∅).1.1 with
  | Some (LoadError e) => os.Error e
  | _ => ""
  end
  = "Failed to set Application Configuration: Failed to overload variables with envfile(s): open AfileThatDoesNotExists: no such file or directory".
Proof. reflexivity. Qed.

(** C1, as the code has it. After a [Setup] that loaded its files, the
    environment is the ambient one with the files godotenv.merged over it, a later
    file over an earlier one, and every registered variable has its default
    value unless the godotenv.merged environment has a non-empty value for its name,
    which it then has. So a non-empty value godotenv.supplied by a file wins; an empty
    value godotenv.supplied by a file hides the ambient value and leaves the default;
    with no file value a non-empty ambient value wins; and the default is
    used otherwise. The other fields of the variable are untouched. *)
Theorem Setup_precedence (Parse : string → string + gmap string string)
    (order : iteration) (appConf appConf' : AppConfig) (envfiles : list string)
    (fs : gmap string os.node) (env env' : gmap string string) (err : option error) :
  Setup Parse order appConf envfiles fs env = (err, appConf', env') →
  (∀ e, err ≠ Some (LoadError e)) →
  ∃ envMaps,
    Forall2 (λ f m, godotenv.readFile Parse fs f = inr m) envfiles envMaps
    ∧ (∀ name, env' !! name = godotenv.merged envMaps env name)
    ∧ (∀ name, vars appConf !! name = None → vars appConf' !! name = None)
    ∧ ∀ name confVar, vars appConf !! name = Some confVar →
        ∃ confVar',
          vars appConf' !! name = Some confVar'
          ∧ DefaultValue confVar' = DefaultValue confVar
          ∧ Description confVar' = Description confVar
          ∧ Rules confVar' = Rules confVar
          ∧ Value confVar'
            = (if bool_decide (os.Getenv env' name = "") then DefaultValue confVar
               else os.Getenv env' name)
          ∧ Value confVar'
            = match godotenv.supplied envMaps name with
              | Some value =>
                  if bool_decide (value = "") then DefaultValue confVar else value
              | None =>
                  if bool_decide (os.Getenv env name = "") then DefaultValue confVar
                  else os.Getenv env name
              end.
Proof.
  unfold Setup. intros Hsetup Hloaded.
  destruct (loadEnv Parse appConf envfiles fs env) as [[[lerr|] conf1] env1] eqn:Hload.
  { injection Hsetup as <- _ _. by destruct (Hloaded _ eq_refl). }
  injection Hsetup as _ <- <-.
  destruct (loadEnv_success _ _ _ _ _ _ _ Hload) as [(envMaps & Hread & Hmerged) Hvars].
  exists envMaps. split; [done|]. split; [done|]. split.
  { intros name Hnone. by rewrite Hvars, Hnone. }
  intros name confVar Hreg. exists (resolve env1 name confVar).
  rewrite Hvars, Hreg. split; [done|].
  destruct (resolve_frame env1 name confVar) as (-> & -> & ->).
  do 3 (split; [done|]).
  rewrite resolve_Value. split; [done|].
  unfold os.Getenv. rewrite Hmerged. unfold godotenv.merged.
  destruct (godotenv.supplied envMaps name) as [value|]; simpl; [|done].
  by case_bool_decide.
Qed.

Lemma Setup_precedence_witness :
  let fs : gmap string os.node :=
    {[ "test.env" := os.File ("APP_PORT=9090" +:+ String envfile.LF "") ]} in
  let env : gmap string string := {[ APP_PORT := "5050"; APP_LOG_LEVEL := "warn" ]} in
  let appConf :=
    NewConfig (Some {[ APP_PORT := mkVariable "" "8080" "TCP/IP Port" ∅;
                       APP_LOG_LEVEL := mkVariable "" "debug" "Level of logging" ∅;
                       APP_ENV := mkVariable "" "test" "The environment" ∅ ]}) in
  let result := Setup envfile.Parse default_iteration appConf ["test.env"] fs env in
  (∀ e, result.1.1 ≠ Some (LoadError e))
  ∧ Get result.1.2 APP_PORT = "9090"
  ∧ Get result.1.2 APP_LOG_LEVEL = "warn"
  ∧ Get result.1.2 APP_ENV = "test"
  ∧ ∃ envMaps,
      Forall2 (λ f m, godotenv.readFile envfile.Parse fs f = inr m) ["test.env"] envMaps
      ∧ (∀ name, result.2 !! name = godotenv.merged envMaps env name)
      ∧ (∀ name, vars appConf !! name = None → vars result.1.2 !! name = None)
      ∧ ∀ name confVar, vars appConf !! name = Some confVar →
          ∃ confVar',
            vars result.1.2 !! name = Some confVar'
            ∧ DefaultValue confVar' = DefaultValue confVar
            ∧ Description confVar' = Description confVar
            ∧ Rules confVar' = Rules confVar
            ∧ Value confVar'
              = (if bool_decide (os.Getenv result.2 name = "") then DefaultValue confVar
                 else os.Getenv result.2 name)
            ∧ Value confVar'
              = match godotenv.supplied envMaps name with
                | Some value =>
                    if bool_decide (value = "") then DefaultValue confVar else value
                | None =>
                    if bool_decide (os.Getenv env name = "") then DefaultValue confVar
                    else os.Getenv env name
                end.
Proof.
  intros fs env appConf result.
  assert (∀ e, result.1.1 ≠ Some (LoadError e)) as Hloaded.
  { intros e He. vm_compute in He. discriminate He. }
  split; [exact Hloaded|].
  do 3 (split; [vm_compute; reflexivity|]).
  apply (Setup_precedence envfile.Parse default_iteration appConf result.1.2
           ["test.env"] fs env result.2 result.1.1); [|exact Hloaded].
  change (result = (result.1.1, result.1.2, result.2)).
  by rewrite <- !surjective_pairing.
Defined.

(** C1 as stated fails for an empty value in a file: the file supplies the
    empty string for [APP_PORT], the ambient value is [5050], and the
    variable resolves to neither but to its default. *)
Lemma Setup_empty_file_value_gives_default :
  let fs : gmap string os.node :=
    {[ "override.env" := os.File ("APP_PORT=" +:+ String envfile.LF "") ]} in
  let env : gmap string string := {[ APP_PORT := "5050" ]} in
  let appConf :=
    NewConfig (Some {[ APP_PORT := mkVariable "" "8080" "TCP/IP Port" ∅ ]}) in
  let result := Setup envfile.Parse default_iteration appConf ["override.env"] fs env in
  godotenv.readFile envfile.Parse fs "override.env" = inr {[ APP_PORT := "" ]}
  ∧ result.1.1 = None
  ∧ Lookup result.1.2 APP_PORT = ("8080", true)
  ∧ os.Getenv result.2 APP_PORT = "".
Proof. vm_compute. repeat split; reflexivity. Qed.

(** ** Validation *)

Lemma ruleErrors_lookup (confVar : Variable_) (ruleName : string) :
  ruleErrors confVar !! ruleName
  = Rules confVar !! ruleName ≫= (λ rule, rule (Value confVar)).
Proof. unfold ruleErrors. by rewrite map_lookup_imap. Qed.

Lemma ruleErrors_empty (confVar : Variable_) :
  ruleErrors confVar = ∅
  ↔ ∀ ruleName rule, Rules confVar !! ruleName = Some rule → rule (Value confVar) = None.
Proof.
  split.
  - intros Hempty ruleName rule Hrule.
    pose proof (ruleErrors_lookup confVar ruleName) as Hlookup.
    rewrite Hempty, lookup_empty, Hrule in Hlookup. done.
  - intros Hpass. apply map_eq. intros ruleName.
    rewrite ruleErrors_lookup, lookup_empty.
    destruct (Rules confVar !! ruleName) as [rule|] eqn:Hrule; [|done].
    simpl. by apply (Hpass ruleName).
Qed.

Lemma size_pos_nonempty {A} (m : gmap string A) : 0 < size m ↔ m ≠ ∅.
Proof.
  split.
  - intros Hpos ->. rewrite map_size_empty in Hpos. lia.
  - intros Hne. destruct (size m) eqn:Hsize; [|lia].
    by apply map_size_empty_inv in Hsize.
Qed.

Lemma collectErrors_snoc (visited : list (string * Variable_)) (entry : string * Variable_) :
  collectErrors (visited ++ [entry])
  = if bool_decide (0 < size (ruleErrors entry.2))
    then <[errorKey entry.1 entry.2 := ruleErrors entry.2]> (collectErrors visited)
    else collectErrors visited.
Proof. unfold collectErrors. by rewrite foldl_app. Qed.

(** Every entry of the collected map is keyed by the name and value of a
    visited variable with a rejecting rule, and holds, for that variable,
    each rejecting rule's name with its message. *)
Lemma collectErrors_sound (visited : list (string * Variable_))
    (key : string) (inner : gmap string string) :
  collectErrors visited !! key = Some inner →
  ∃ name confVar,
    (name, confVar) ∈ visited ∧ key = errorKey name confVar
    ∧ inner = ruleErrors confVar ∧ inner ≠ ∅.
Proof.
  induction visited as [|[name confVar] visited IH] using rev_ind.
  - unfold collectErrors. simpl. by rewrite lookup_empty.
  - rewrite collectErrors_snoc. simpl. case_bool_decide as Hpos.
    + destruct (decide (errorKey name confVar = key)) as [<-|Hne].
      * rewrite lookup_insert_eq. intros [= <-].
        exists name, confVar. rewrite elem_of_app, list_elem_of_singleton.
        split; [by right|]. split; [done|]. split; [done|].
        by apply size_pos_nonempty.
      * rewrite lookup_insert_ne by done. intros Hin.
        destruct (IH Hin) as (n & v & Hel & Hrest). exists n, v.
        rewrite elem_of_app. by split; [left|].
    + intros Hin. destruct (IH Hin) as (n & v & Hel & Hrest). exists n, v.
      rewrite elem_of_app. by split; [left|].
Qed.

(** Every visited variable with a rejecting rule has its key in the map. *)
Lemma collectErrors_key (visited : list (string * Variable_))
    (name : string) (confVar : Variable_) :
  (name, confVar) ∈ visited → ruleErrors confVar ≠ ∅ →
  is_Some (collectErrors visited !! errorKey name confVar).
Proof.
  induction visited as [|[n v] visited IH] using rev_ind; [by intros ?%elem_of_nil|].
  rewrite elem_of_app, list_elem_of_singleton, collectErrors_snoc. simpl.
  intros [Hin|[= <- <-]] Hfail.
  - case_bool_decide; [|by apply IH].
    destruct (decide (errorKey n v = errorKey name confVar)) as [->|Hne].
    + rewrite lookup_insert_eq. by eexists.
    + rewrite lookup_insert_ne by done. by apply IH.
  - rewrite bool_decide_eq_true_2 by (by apply size_pos_nonempty).
    rewrite lookup_insert_eq. by eexists.
Qed.

(** When no other visited variable renders the same key, the entry is that
    variable's. *)
Lemma collectErrors_exact (visited : list (string * Variable_))
    (name : string) (confVar : Variable_) :
  (name, confVar) ∈ visited → ruleErrors confVar ≠ ∅ →
  (∀ n v, (n, v) ∈ visited → errorKey n v = errorKey name confVar → v = confVar) →
  collectErrors visited !! errorKey name confVar = Some (ruleErrors confVar).
Proof.
  intros Hin Hfail Hunique.
  destruct (collectErrors_key visited name confVar Hin Hfail) as [inner Hinner].
  destruct (collectErrors_sound _ _ _ Hinner) as (n & v & Hel & Hkey & -> & _).
  by rewrite Hinner, (Hunique n v Hel).
Qed.

Lemma collectErrors_empty (visited : list (string * Variable_)) :
  collectErrors visited = ∅
  ↔ ∀ name confVar, (name, confVar) ∈ visited → ruleErrors confVar = ∅.
Proof.
  split.
  - intros Hempty name confVar Hin.
    destruct (decide (ruleErrors confVar = ∅)) as [|Hfail]; [done|].
    destruct (collectErrors_key visited name confVar Hin Hfail) as [inner Hinner].
    by rewrite Hempty, lookup_empty in Hinner.
  - intros Hpass. apply map_eq. intros key. rewrite lookup_empty.
    destruct (collectErrors visited !! key) as [inner|] eqn:Hinner; [|done].
    destruct (collectErrors_sound _ _ _ Hinner) as (n & v & Hel & _ & -> & Hne).
    by destruct Hne; apply (Hpass n).
Qed.

Lemma Validate_result (order : iteration) (appConf : AppConfig) :
  Validate order appConf
  = if bool_decide (collectErrors (range order (vars appConf)) = ∅) then None
    else Some (ValidationError (collectErrors (range order (vars appConf)))).
Proof.
  unfold Validate, ValidationErrors.
  generalize (collectErrors (range order (vars appConf))). intros allErrors.
  destruct (decide (allErrors = ∅)) as [->|Hne].
  - rewrite bool_decide_eq_false_2 by (rewrite map_size_empty; lia).
    by rewrite bool_decide_eq_true_2.
  - rewrite (bool_decide_eq_false_2 (allErrors = ∅)) by done.
    apply size_pos_nonempty in Hne. by rewrite !bool_decide_eq_true_2.
Qed.

(** What [Validate] does in whatever order the maps are visited: it returns
    no error exactly when every rule of every variable accepts the variable's
    value; otherwise it returns the map of maps, whose entries are keyed
    ["<name> = <value>"] for a variable with a rejecting rule and hold that
    variable's rejecting rules with their messages; the key of every such
    variable is present, and its entry is its own when no other variable
    renders the same key. *)
Theorem Validate_reports (order : iteration) (appConf : AppConfig) :
  (Validate order appConf = None
   ↔ ∀ name confVar ruleName rule,
       vars appConf !! name = Some confVar → Rules confVar !! ruleName = Some rule →
       rule (Value confVar) = None)
  ∧ ∀ err, Validate order appConf = Some err →
      ∃ allErrors,
        err = ValidationError allErrors
        ∧ (∀ key inner, allErrors !! key = Some inner →
             ∃ name confVar,
               vars appConf !! name = Some confVar
               ∧ key = name +:+ " = " +:+ Value confVar
               ∧ inner ≠ ∅
               ∧ ∀ ruleName,
                   inner !! ruleName
                   = Rules confVar !! ruleName ≫= (λ rule, rule (Value confVar)))
        ∧ (∀ name confVar ruleName rule msg,
             vars appConf !! name = Some confVar →
             Rules confVar !! ruleName = Some rule → rule (Value confVar) = Some msg →
             is_Some (allErrors !! (name +:+ " = " +:+ Value confVar))
             ∧ ((∀ n v, vars appConf !! n = Some v →
                        errorKey n v = errorKey name confVar → v = confVar) →
                ∃ inner, allErrors !! (name +:+ " = " +:+ Value confVar) = Some inner
                         ∧ inner !! ruleName = Some msg)).
Proof.
  rewrite Validate_result. split.
  - case_bool_decide as Hempty.
    + split; [|done]. intros _ name confVar ruleName rule Hreg.
      apply ruleErrors_empty.
      by apply (proj1 (collectErrors_empty _) Hempty name), elem_of_range.
    + split; [done|]. intros Hpass. destruct Hempty.
      apply collectErrors_empty. intros name confVar Hin%elem_of_range.
      apply ruleErrors_empty. intros ruleName rule. by apply (Hpass name).
  - intros err. case_bool_decide as Hempty; [done|]. intros [= <-].
    eexists. split; [done|]. split.
    + intros key inner Hinner.
      destruct (collectErrors_sound _ _ _ Hinner) as (n & v & Hel%elem_of_range & -> & -> & Hne).
      exists n, v. repeat split; try done. intros ruleName. apply ruleErrors_lookup.
    + intros name confVar ruleName rule msg Hreg Hrule Hmsg.
      assert (ruleErrors confVar !! ruleName = Some msg) as Hfails.
      { by rewrite ruleErrors_lookup, Hrule. }
      assert (ruleErrors confVar ≠ ∅) as Hne.
      { intros Hnone. by rewrite Hnone, lookup_empty in Hfails. }
      rewrite <- (elem_of_range order) in Hreg. split.
      * by apply collectErrors_key.
      * intros Hunique. exists (ruleErrors confVar). split; [|done].
        apply collectErrors_exact; [done|done|].
        intros n v Hel%elem_of_range. by apply Hunique.
Qed.

(** C3 on the colliding schema. In whatever order the store is visited,
    [Validate] returns a single entry, keyed [DB = HOST = ], that holds the
    rejecting rule of one of the two variables only: the failure of the other
    variable is overwritten, so the report lacks either the [Required]
    failure of the empty variable or the [Truthy value] failure of [DB]. *)
Theorem Validate_key_collision (order : iteration) :
  validation.Required "" = Some "cannot be blank"
  ∧ validation.In TruthyValues "HOST = " = Some "must be a valid value"
  ∧ errorKey "DB" (mkVariable "HOST = " "" "" ∅)
    = errorKey "DB = HOST" (mkVariable "" "" "" ∅)
  ∧ ∃ inner,
      Validate order (NewConfig (Some collidingSchema))
      = Some (ValidationError {[ "DB = HOST = " := inner ]})
      ∧ (inner = {[ "Truthy value" := "must be a valid value" ]}
         ∨ inner = {[ "Required" := "cannot be blank" ]}).
Proof.
  do 3 (split; [reflexivity|]).
  rewrite Validate_result.
  pose proof (range_perm order _ (vars (NewConfig (Some collidingSchema)))) as Hperm.
  assert (map_to_list (vars (NewConfig (Some collidingSchema)))
          = [("DB = HOST", mkVariable "" "" "" {[ "Required" := validation.Required ]});
             ("DB", mkVariable "HOST = " "" ""
                      {[ "Truthy value" := validation.In TruthyValues ]})]) as Hlist.
  { vm_compute. reflexivity. }
  rewrite Hlist in Hperm. symmetry in Hperm.
  apply Permutation_length_2_inv in Hperm as [-> | ->].
  - exists {[ "Truthy value" := "must be a valid value" ]}.
    split; [vm_compute; reflexivity|by left].
  - exists {[ "Required" := "cannot be blank" ]}.
    split; [vm_compute; reflexivity|by right].
Qed.

(** ** The sample file *)

Section SampleFile.
Import envfile envfile_spec.
Variable order : iteration.








End SampleFile.







End config_spec.

(** * Properties of the logger *)
Module logger_spec.
Import golang golang_spec logger.

(** ** The error field *)

Lemma string_pair_ind (P : string → Prop) :
  P "" → (∀ c, P (String c "")) →
  (∀ c c' s, P s → P (String c' s) → P (String c (String c' s))) →
  ∀ s, P s.
Proof.
  intros Hnil Hone Hstep s.
  assert (P s ∧ ∀ c, P (String c s)) as [Hs _]; [|exact Hs].
  induction s as [|c' s [IHs IHc]].
  - split; [exact Hnil|exact Hone].
  - split; [apply IHc|]. intros c. apply Hstep; [exact IHs|apply IHc].
Qed.

Lemma removeTabs_separator (str : string) :
  removeTabs (" --- " +:+ str) = " --- " +:+ removeTabs str.
Proof. reflexivity. Qed.

(** The two passes of the code amount to the one pass of the spec. *)
Lemma removeTabs_replaceNewlines (str : string) :
  removeTabs (replaceNewlines str) = oneLine str.
Proof.
  induction str as [|c|c c' s IHs IHc] using string_pair_ind.
  - reflexivity.
  - simpl. destruct (Ascii.eqb c LF) eqn:Hlf; [reflexivity|].
    destruct (Ascii.eqb c TAB) eqn:Htab; destruct (Ascii.eqb c CR) eqn:Hcr;
      simpl; rewrite ?Htab; reflexivity.
  - change (replaceNewlines (String c (String c' s)))
      with (if Ascii.eqb c LF then " --- " +:+ replaceNewlines (String c' s)
            else if Ascii.eqb c CR then
                   if Ascii.eqb c' LF then " --- " +:+ replaceNewlines s
                   else String c (replaceNewlines (String c' s))
                 else String c (replaceNewlines (String c' s))).
    change (oneLine (String c (String c' s)))
      with (if Ascii.eqb c LF then " --- " +:+ oneLine (String c' s)
            else if Ascii.eqb c TAB then oneLine (String c' s)
            else if Ascii.eqb c CR then
                   if Ascii.eqb c' LF then " --- " +:+ oneLine s
                   else String c (oneLine (String c' s))
                 else String c (oneLine (String c' s))).
    assert (∀ rest, Ascii.eqb c TAB = false →
                    removeTabs (String c rest) = String c (removeTabs rest)) as Hkeep.
    { intros rest Hc. simpl. by rewrite Hc. }
    assert (∀ rest, Ascii.eqb c TAB = true → removeTabs (String c rest) = removeTabs rest)
      as Hdrop.
    { intros rest Hc. simpl. by rewrite Hc. }
    destruct (Ascii.eqb c LF) eqn:Hlf.
    { by rewrite removeTabs_separator, IHc. }
    destruct (Ascii.eqb c TAB) eqn:Htab.
    { assert (Ascii.eqb c CR = false) as ->.
      { apply Ascii.eqb_eq in Htab. by subst c. }
      by rewrite Hdrop, IHc. }
    destruct (Ascii.eqb c CR) eqn:Hcr.
    + destruct (Ascii.eqb c' LF) eqn:Hlf'.
      * by rewrite removeTabs_separator, IHs.
      * by rewrite Hkeep, IHc.
    + by rewrite Hkeep, IHc.
Qed.

(** The one-line form holds neither a line feed nor a tab. *)
Lemma oneLine_flat (str : string) :
  Forall (λ c, c ≠ LF ∧ c ≠ TAB) (list_ascii_of_string (oneLine str)).
Proof.
  assert (∀ rest, Forall (λ c, c ≠ LF ∧ c ≠ TAB) (list_ascii_of_string rest) →
                  Forall (λ c, c ≠ LF ∧ c ≠ TAB) (list_ascii_of_string (" --- " +:+ rest)))
    as Hsep.
  { intros rest Hrest. simpl. repeat (constructor; [by split|]). exact Hrest. }
  induction str as [|c|c c' s IHs IHc] using string_pair_ind.
  - constructor.
  - simpl. destruct (Ascii.eqb c LF) eqn:Hlf; [by apply Hsep|].
    destruct (Ascii.eqb c TAB) eqn:Htab; [constructor|].
    apply Ascii.eqb_neq in Hlf, Htab.
    destruct (Ascii.eqb c CR); simpl; by repeat constructor.
  - change (oneLine (String c (String c' s)))
      with (if Ascii.eqb c LF then " --- " +:+ oneLine (String c' s)
            else if Ascii.eqb c TAB then oneLine (String c' s)
            else if Ascii.eqb c CR then
                   if Ascii.eqb c' LF then " --- " +:+ oneLine s
                   else String c (oneLine (String c' s))
                 else String c (oneLine (String c' s))).
    destruct (Ascii.eqb c LF) eqn:Hlf; [by apply Hsep|].
    destruct (Ascii.eqb c TAB) eqn:Htab; [exact IHc|].
    apply Ascii.eqb_neq in Hlf, Htab.
    destruct (Ascii.eqb c CR); [destruct (Ascii.eqb c' LF); [by apply Hsep|]|];
      simpl; by constructor.
Qed.

(** A text without line feeds and tabs is its own one-line form. *)
Lemma oneLine_id (str : string) :
  Forall (λ c, c ≠ LF ∧ c ≠ TAB) (list_ascii_of_string str) → oneLine str = str.
Proof.
  induction str as [|c|c c' s IHs IHc] using string_pair_ind.
  - reflexivity.
  - simpl. intros [[Hlf Htab] _]%Forall_cons.
    apply Ascii.eqb_neq in Hlf, Htab. rewrite Hlf, Htab. by destruct (Ascii.eqb c CR).
  - intros [[Hlf Htab] Hrest]%Forall_cons.
    change (oneLine (String c (String c' s)))
      with (if Ascii.eqb c LF then " --- " +:+ oneLine (String c' s)
            else if Ascii.eqb c TAB then oneLine (String c' s)
            else if Ascii.eqb c CR then
                   if Ascii.eqb c' LF then " --- " +:+ oneLine s
                   else String c (oneLine (String c' s))
                 else String c (oneLine (String c' s))).
    apply Ascii.eqb_neq in Hlf, Htab. rewrite Hlf, Htab.
    pose proof Hrest as [[Hlf' _] _]%Forall_cons.
    apply Ascii.eqb_neq in Hlf'. rewrite Hlf', (IHc Hrest).
    by destruct (Ascii.eqb c CR).
Qed.

(** C6. The entry [WithError] returns has the field [error], a string: the
    literal [<nil>] for a nil error; the error's own message when it unwraps
    to nothing; otherwise the [%+v] rendering of what it unwraps to, as it is
    when the logger does not format errors, and in its one-line form (every
    newline sequence replaced by [" --- "], every tab dropped) when it does.
    The other fields are the logger's default fields. *)
Theorem WithError_field (l : Logger) (h : store) :
  Data (WithError l h None) !! "error" = Some (VString "<nil>")
  ∧ (∀ e, errors.Unwrap e = None →
          Data (WithError l h (Some e)) !! "error" = Some (VString (errors.Error e)))
  ∧ (∀ e cause, errors.Unwrap e = Some cause → formatErrors l = false →
          Data (WithError l h (Some e)) !! "error"
          = Some (VString (errors.verbose cause)))
  ∧ (∀ e cause, errors.Unwrap e = Some cause → formatErrors l = true →
          Data (WithError l h (Some e)) !! "error"
          = Some (VString (oneLine (errors.verbose cause))))
  ∧ (∀ err key, key ≠ "error" →
          Data (WithError l h err) !! key = fieldsAt h (defaultFields l) !! key).
Proof.
  unfold WithError, entryWithField, sinkWithFields, parseError. simpl.
  split; [by rewrite lookup_insert_eq|].
  split; [by intros e ->; rewrite lookup_insert_eq|].
  split; [by intros e cause -> ->; rewrite lookup_insert_eq|].
  split.
  - intros e cause -> ->. by rewrite lookup_insert_eq, removeTabs_replaceNewlines.
  - intros err key Hkey. by rewrite lookup_insert_ne.
Qed.

Lemma WithError_field_witness :
  let formatting := NewLogger {[ "LOG_FORMAT_ERRORS" := "true" ]} 0 None in
  let plain := NewLogger ∅ 0 None in
  let getError :=
    errors.New "Test Error"
      [("github.com/universal-devs/go-utilities/logger.getError", "logger_test.go:135")] in
  let getSomething :=
    errors.Wrap getError "Cannot get something"
      [("github.com/universal-devs/go-utilities/logger.getSomething", "logger_test.go:139")] in
  Data (WithError plain ∅ None) !! "error" = Some (VString "<nil>")
  ∧ Data (WithError plain ∅ (Some getError)) !! "error" = Some (VString "Test Error")
  ∧ Data (WithError plain ∅ (Some getSomething)) !! "error"
    = Some (VString ("Test Error" +:+ errors.LF
                     +:+ "github.com/universal-devs/go-utilities/logger.getError"
                     +:+ errors.LF +:+ errors.TAB +:+ "logger_test.go:135"
                     +:+ errors.LF +:+ "Cannot get something"))
  ∧ Data (WithError formatting ∅ (Some getSomething)) !! "error"
    = Some (VString "Test Error --- github.com/universal-devs/go-utilities/logger.getError --- logger_test.go:135 --- Cannot get something").
Proof.
  intros formatting plain getError getSomething.
  destruct (WithError_field plain ∅) as (Hnil & Hplain & Hraw & _).
  destruct (WithError_field formatting ∅) as (_ & _ & _ & Hflat & _).
  split; [exact Hnil|].
  split; [exact (Hplain getError eq_refl)|].
  split; [exact (Hraw getSomething _ eq_refl eq_refl)|].
  exact (Hflat getSomething _ eq_refl eq_refl).
Defined.

(** ** Component loggers *)

(** Copying a map entry by entry into an empty map gives the same map, in
    whatever order the entries are visited. *)
Lemma copy_entries (order : iteration) (fields : gmap string value) :
  foldl (λ acc entry, <[entry.1 := entry.2]> acc) (∅ : gmap string value)
        (range order fields)
  = fields.
Proof.
  assert (∀ l : list (string * value), NoDup l.*1 →
            ∀ k v, foldl (λ acc entry, <[entry.1 := entry.2]> acc)
                         (∅ : gmap string value) l !! k = Some v
                   ↔ (k, v) ∈ l) as Hcopy.
  { induction l as [|[k' v'] l IH] using rev_ind; intros Hnodup k v.
    - simpl. rewrite lookup_empty, elem_of_nil. by split.
    - rewrite fmap_app in Hnodup. apply NoDup_app in Hnodup as (Hl & Hfresh & _).
      rewrite foldl_app, elem_of_app, list_elem_of_singleton. simpl.
      destruct (decide (k' = k)) as [->|Hne].
      + rewrite lookup_insert_eq. split.
        * intros [= ->]. by right.
        * intros [Hin|[= ->]]; [|done].
          destruct (Hfresh k); [|simpl; apply list_elem_of_singleton; done].
          apply list_elem_of_fmap. by exists (k, v).
      + rewrite lookup_insert_ne, (IH Hl) by done. split; [by left|].
        intros [Hin|[= <- _]]; done. }
  apply map_eq. intros k. apply option_eq. intros v.
  rewrite Hcopy, elem_of_range; [done|].
  rewrite (range_perm order). apply NoDup_fst_map_to_list.
Qed.

(** C7, as the code has it. The component logger has a map of its own,
    which is the parent's map with [component] set to the component name:
    one entry more when the parent has no [component] field, and the parent's
    [component] entry replaced when it has one. The parent's map is left as
    it was, the sink and the adapter settings are the parent's, and a later
    assignment to an entry of the parent's map does not change the child's
    map. *)
Theorem NewComponentLogger_copies (order : iteration) (env : gmap string string)
    (parent child : Logger) (componentName : string) (h h' : store) :
  NewComponentLogger order env parent componentName h = (child, h') →
  (∀ r, defaultFields parent = Some r → is_Some (h !! r)) →
  fieldsAt h' (defaultFields child)
  = <["component" := VString componentName]> (fieldsAt h (defaultFields parent))
  ∧ (fieldsAt h (defaultFields parent) !! "component" = None →
       size (fieldsAt h' (defaultFields child))
       = S (size (fieldsAt h (defaultFields parent)))
       ∧ fieldsAt h (defaultFields parent) ⊆ fieldsAt h' (defaultFields child))
  ∧ (is_Some (fieldsAt h (defaultFields parent) !! "component") →
       size (fieldsAt h' (defaultFields child))
       = size (fieldsAt h (defaultFields parent)))
  ∧ fieldsAt h' (defaultFields parent) = fieldsAt h (defaultFields parent)
  ∧ log child = log parent
  ∧ gormConf child = gormConf parent
  ∧ ∀ key v h'', assign (defaultFields parent) key v h' = Some h'' →
      fieldsAt h'' (defaultFields child) = fieldsAt h' (defaultFields child)
      ∧ fieldsAt h'' (defaultFields parent) !! key = Some v.
Proof.
  unfold NewComponentLogger. rewrite copy_entries. intros [= <- <-] Halloc. simpl.
  pose proof (is_fresh (dom h)) as Hfresh. apply not_elem_of_dom in Hfresh.
  assert (∀ r, defaultFields parent = Some r → r ≠ fresh (dom h)) as Hother.
  { intros r Hr ->. destruct (Halloc _ Hr) as [m Hm]. congruence. }
  rewrite lookup_insert_eq. simpl.
  split; [done|]. split.
  { intros Hnone. split; [by apply map_size_insert_None|by apply insert_subseteq]. }
  split.
  { intros [old Hold]. by apply map_size_insert_Some. }
  split.
  { destruct (defaultFields parent) as [r|] eqn:Hr; simpl; [|done].
    by rewrite lookup_insert_ne by (symmetry; by apply Hother). }
  split; [done|]. split; [by destruct (gormConf parent)|].
  intros key v h'' Hassign.
  destruct (defaultFields parent) as [r|] eqn:Hr; simpl in *; [|discriminate Hassign].
  injection Hassign as <-.
  assert (r ≠ fresh (dom h)) as Hne by (by apply Hother).
  rewrite lookup_alter_ne by done. rewrite lookup_insert_eq. split; [done|].
  rewrite lookup_alter_eq, lookup_insert_ne by done.
  destruct (Halloc r eq_refl) as [m ->]. simpl. by rewrite lookup_insert_eq.
Qed.

Lemma NewComponentLogger_copies_witness :
  let fields : gmap string value :=
    {[ "Field1" := VString "Value1"; "Field2" := VInt 23; "Field3" := VBool true ]} in
  let h : store := {[ 1%positive := fields ]} in
  let parent := NewLogger ∅ 0 (Some 1%positive) in
  let result := NewComponentLogger default_iteration ∅ parent "test-device" h in
  (∀ r, defaultFields parent = Some r → is_Some (h !! r))
  ∧ fieldsAt result.2 (defaultFields result.1)
    = <["component" := VString "test-device"]> fields
  ∧ ∀ key v h'', assign (defaultFields parent) key v result.2 = Some h'' →
      fieldsAt h'' (defaultFields result.1) = fieldsAt result.2 (defaultFields result.1)
      ∧ fieldsAt h'' (defaultFields parent) !! key = Some v.
Proof.
  intros fields h parent result.
  assert (∀ r, defaultFields parent = Some r → is_Some (h !! r)) as Halloc.
  { intros r [= <-]. by exists fields. }
  split; [exact Halloc|].
  destruct (NewComponentLogger_copies default_iteration ∅ parent result.1 "test-device"
              h result.2) as (Hfields & _ & _ & _ & _ & _ & Hassign).
  - change (result = (result.1, result.2)). by rewrite <- surjective_pairing.
  - exact Halloc.
  - split; [exact Hfields|exact Hassign].
Defined.

(** C7 as stated fails for a parent that has a [component] field, as the
    component logger of a component logger has: the child's map has as many
    entries as the parent's, and the parent's [component] entry is not in
    it. *)
Lemma NewComponentLogger_replaces_component :
  let fields : gmap string value :=
    {[ "service" := VString "api"; "component" := VString "storage" ]} in
  let h : store := {[ 1%positive := fields ]} in
  let parent := NewLogger ∅ 0 (Some 1%positive) in
  let result := NewComponentLogger default_iteration ∅ parent "GORM" h in
  fieldsAt result.2 (defaultFields result.1)
  = {[ "service" := VString "api"; "component" := VString "GORM" ]}
  ∧ size (fieldsAt result.2 (defaultFields result.1))
    = size (fieldsAt h (defaultFields parent))
  ∧ fieldsAt result.2 (defaultFields result.1) !! "component"
    ≠ fieldsAt h (defaultFields parent) !! "component".
Proof.
  vm_compute. split; [reflexivity|]. split; [reflexivity|].
  intros Hsame. discriminate Hsame.
Qed.

End logger_spec.

(** * Further properties of the configuration store *)
Module config_more.
Import constants golang golang_spec config config_spec.

(** ** Running the loader again *)

Section Reload.
Variable Parse : string → string + gmap string string.
Variable fs : gmap string os.node.

(** Loading a prefix of readable files merges them and goes on with the
    rest. *)
Lemma overloadFiles_app (loaded : list string) (envMaps : list (gmap string string)) :
  Forall2 (λ f m, godotenv.readFile Parse fs f = inr m) loaded envMaps →
  ∀ env, ∃ env1,
    (∀ k, env1 !! k = godotenv.merged envMaps env k)
    ∧ ∀ rest, godotenv.overloadFiles Parse fs (loaded ++ rest)%list env
              = godotenv.overloadFiles Parse fs rest env1.
Proof.
  induction 1 as [|f envMap loaded envMaps Hread _ IH]; intros env.
  - exists env. by split.
  - destruct (loadFile_overload Parse fs f env envMap Hread) as (env0 & Hf & Hlookup).
    destruct (IH env0) as (env1 & Hmerged & Hrest).
    exists env1. split.
    + intros k. rewrite Hmerged. by apply merged_cons.
    + intros rest. simpl. by rewrite Hf, Hrest.
Qed.

(** However the loop ends, it has merged the files before the one it
    stopped at, and it stopped either after the last file or at a file that
    is not read. *)
Lemma overloadFiles_inv (filenames : list string) (env env' : gmap string string)
    (result : option os.error) :
  godotenv.overloadFiles Parse fs filenames env = (result, env') →
  ∃ loaded envMaps,
    Forall2 (λ f m, godotenv.readFile Parse fs f = inr m) loaded envMaps
    ∧ (∀ k, env' !! k = godotenv.merged envMaps env k)
    ∧ match result with
      | None => filenames = loaded
      | Some cause =>
          ∃ f rest, filenames = (loaded ++ f :: rest)%list
                    ∧ godotenv.readFile Parse fs f = inl cause
      end.
Proof.
  revert env. induction filenames as [|f rest IH]; intros env Hload; simpl in Hload.
  - injection Hload as <- <-. exists [], []. by repeat split; [constructor|..].
  - destruct (godotenv.readFile Parse fs f) as [err|envMap] eqn:Hread.
    + rewrite (loadFile_failure _ _ _ _ _ _ Hread) in Hload. injection Hload as <- <-.
      exists [], []. split; [constructor|]. split; [done|]. by exists f, rest.
    + destruct (loadFile_overload Parse fs f env envMap Hread) as (env0 & Hf & Hlookup).
      rewrite Hf in Hload.
      destruct (IH _ Hload) as (loaded & envMaps & Hall & Hmerged & Hend).
      exists (f :: loaded), (envMap :: envMaps). split; [by constructor|]. split.
      * intros k. rewrite Hmerged. by apply merged_cons.
      * destruct result as [cause|]; [|by rewrite Hend].
        destruct Hend as (f' & rest' & -> & Hfail). by exists f', rest'.
Qed.



End Reload.


(** What decides the outcome of [loadEnv]: the outcome of loading the files,
    which does not depend on the store. *)
Lemma loadEnv_unfold (Parse : string → string + gmap string string)
    (appConf : AppConfig) (envfiles : list string) (fs : gmap string os.node)
    (env : gmap string string) :
  loadEnv Parse appConf envfiles fs env
  = match (if bool_decide (0 < length envfiles)
           then godotenv.overloadFiles Parse fs envfiles env else (None, env)) with
    | (Some err, env') =>
        (Some (os.Wrap err "Failed to overload variables with envfile(s)"), appConf, env')
    | (None, env') =>
        (None,
         {| vars := map_imap (λ confKey confVar, Some (resolve env' confKey confVar))
                             (vars appConf) |},
         env')
    end.
Proof.
  unfold loadEnv. destruct envfiles as [|f rest]; [done|].
  by rewrite Overload_nonempty.
Qed.

Lemma lookup_resolved (env : gmap string string) (m : gmap string Variable_)
    (name : string) :
  map_imap (λ confKey confVar, Some (resolve env confKey confVar)) m !! name
  = resolve env name <$> m !! name.
Proof. rewrite map_lookup_imap. by destruct (m !! name). Qed.



(** ** What resolution reads and what it keeps *)



(** X3. [Setup] neither adds nor removes a variable and never changes a
    default value, a description or a rule, whatever it returns. *)
Theorem Setup_preserves_schema (Parse : string → string + gmap string string)
    (order : iteration) (appConf appConf' : AppConfig) (envfiles : list string)
    (fs : gmap string os.node) (env env' : gmap string string) (err : option error) :
  Setup Parse order appConf envfiles fs env = (err, appConf', env') →
  ∀ name,
    (λ confVar, (DefaultValue confVar, Description confVar, Rules confVar))
      <$> vars appConf' !! name
    = (λ confVar, (DefaultValue confVar, Description confVar, Rules confVar))
        <$> vars appConf !! name.
Proof.
  unfold Setup. rewrite loadEnv_unfold.
  destruct (if bool_decide (0 < length envfiles)
            then godotenv.overloadFiles Parse fs envfiles env else (None, env))
    as [[cause|] env1]; intros [= _ <- _] name; [done|].
  simpl. rewrite lookup_resolved. destruct (vars appConf !! name) as [confVar|]; [|done].
  simpl. by destruct (resolve_frame env1 name confVar) as (-> & -> & ->).
Qed.

Lemma Setup_preserves_schema_witness :
  let appConf :=
    NewConfig (Some {[ APP_PORT := mkVariable "" "8080" "TCP/IP Port"
                                     {[ "Required" := validation.Required ]} ]}) in
  let result :=
    Setup envfile.Parse default_iteration appConf [] ∅ {[ APP_PORT := "5050" ]} in
  Get result.1.2 APP_PORT = "5050"
  ∧ ∀ name,
      (λ confVar, (DefaultValue confVar, Description confVar, Rules confVar))
        <$> vars result.1.2 !! name
      = (λ confVar, (DefaultValue confVar, Description confVar, Rules confVar))
          <$> vars appConf !! name.
Proof.
  intros appConf result. split; [reflexivity|].
  apply (Setup_preserves_schema envfile.Parse default_iteration appConf result.1.2 []
           ∅ {[ APP_PORT := "5050" ]} result.2 result.1.1).
  change (result = (result.1.1, result.1.2, result.2)).
  by rewrite <- !surjective_pairing.
Defined.

(** X4. A load failure is not undone in the environment: when [Setup] stops
    at a file that cannot be read, the values of the files before it have
    been put into the process environment, a later of them over an earlier
    one, although the store is left untouched. *)
Theorem Setup_failure_keeps_loaded_files (Parse : string → string + gmap string string)
    (order : iteration) (appConf : AppConfig) (loaded rest : list string)
    (failing : string) (envMaps : list (gmap string string)) (cause : os.error)
    (fs : gmap string os.node) (env : gmap string string) :
  Forall2 (λ f m, godotenv.readFile Parse fs f = inr m) loaded envMaps →
  godotenv.readFile Parse fs failing = inl cause →
  ∃ env',
    Setup Parse order appConf (loaded ++ failing :: rest)%list fs env
    = (Some (LoadError
               (os.Wrap (os.Wrap cause "Failed to overload variables with envfile(s)")
                        "Failed to set Application Configuration")),
       appConf, env')
    ∧ ∀ k, env' !! k = godotenv.merged envMaps env k.
Proof.
  intros Hloaded Hfail.
  destruct (overloadFiles_app Parse fs loaded envMaps Hloaded env) as (env1 & Hmerged & Hrest).
  exists env1. split; [|done].
  unfold Setup. rewrite loadEnv_unfold.
  rewrite bool_decide_eq_true_2 by (rewrite length_app; simpl; lia).
  rewrite Hrest. simpl. by rewrite (loadFile_failure _ _ _ _ _ _ Hfail).
Qed.

Lemma Setup_failure_keeps_loaded_files_witness :
  let fs : gmap string os.node :=
    {[ "one.env" := os.File ("APP_PORT=9090" +:+ String envfile.LF "") ]} in
  let appConf := NewConfig (Some {[ APP_PORT := mkVariable "" "8080" "" ∅ ]}) in
  let result :=
    Setup envfile.Parse default_iteration appConf ["one.env"; "missing.env"] fs ∅ in
  Forall2 (λ f m, godotenv.readFile envfile.Parse fs f = inr m)
          ["one.env"] [({[ APP_PORT := "9090" ]} : gmap string string)]
  ∧ godotenv.readFile envfile.Parse fs "missing.env"
    = inl (os.PathError "open" "missing.env" "no such file or directory")
  ∧ Get result.1.2 APP_PORT = ""
  ∧ os.Getenv result.2 APP_PORT = "9090".
Proof.
  intros fs appConf result.
  assert (Forall2 (λ f m, godotenv.readFile envfile.Parse fs f = inr m)
                  ["one.env"] [({[ APP_PORT := "9090" ]} : gmap string string)]) as Hloaded.
  { constructor; [vm_compute; reflexivity|constructor]. }
  assert (godotenv.readFile envfile.Parse fs "missing.env"
          = inl (os.PathError "open" "missing.env" "no such file or directory")) as Hfail.
  { reflexivity. }
  split; [exact Hloaded|]. split; [exact Hfail|].
  destruct (Setup_failure_keeps_loaded_files envfile.Parse default_iteration appConf
              ["one.env"] [] "missing.env" _ _ fs ∅ Hloaded Hfail) as (env' & Hsetup & Henv).
  change (result = (Some (LoadError
                             (os.Wrap (os.Wrap (os.PathError "open" "missing.env"
                                                  "no such file or directory")
                                         "Failed to overload variables with envfile(s)")
                                      "Failed to set Application Configuration")),
                    appConf, env')) in Hsetup.
  rewrite Hsetup. simpl. split; [reflexivity|].
  unfold os.Getenv. rewrite Henv. reflexivity.
Defined.

(** X5. [Setup] returns no error exactly when every override file is read
    and every rule of every variable accepts the value the variable was
    resolved to. *)
Theorem Setup_succeeds_iff (Parse : string → string + gmap string string)
    (order : iteration) (appConf appConf' : AppConfig) (envfiles : list string)
    (fs : gmap string os.node) (env env' : gmap string string) (err : option error) :
  Setup Parse order appConf envfiles fs env = (err, appConf', env') →
  (err = None
   ↔ Forall (λ f, ∃ envMap, godotenv.readFile Parse fs f = inr envMap) envfiles
     ∧ ∀ name confVar ruleName rule,
         vars appConf' !! name = Some confVar → Rules confVar !! ruleName = Some rule →
         rule (Value confVar) = None).
Proof.
  unfold Setup.
  destruct (loadEnv Parse appConf envfiles fs env) as [[[lerr|] conf1] env1] eqn:Hload.
  - intros [= <- <- <-]. split; [done|]. intros [Hread _]. exfalso.
    rewrite loadEnv_unfold in Hload.
    destruct (bool_decide (0 < length envfiles)); [|done].
    destruct (godotenv.overloadFiles Parse fs envfiles env) as [[cause|] env2] eqn:Hover;
      [|done].
    destruct (overloadFiles_inv _ _ _ _ _ _ Hover) as (loaded & envMaps & _ & _ & Hend).
    destruct Hend as (f & rest & -> & Hfail).
    apply Forall_app in Hread as [_ Hread]. apply Forall_cons in Hread as [[m Hm] _].
    congruence.
  - intros [= <- <- <-].
    destruct (loadEnv_success _ _ _ _ _ _ _ Hload) as [(envMaps & Hread & _) _].
    destruct (Validate_reports order conf1) as [Hnone _]. rewrite Hnone.
    split; [|by intros [_ ?]]. intros Hpass. split; [|done].
    clear -Hread. induction Hread as [|f m fs' ms Hf _ IH]; constructor; [by exists m|done].
Qed.

Lemma Setup_succeeds_iff_witness :
  let appConf :=
    NewConfig (Some {[ APP_ENV := mkVariable "" "test" ""
                                    {[ "Required" := validation.Required;
                                       "Valid environment"
                                       := validation.In ValidEnvironments ]} ]}) in
  let good := Setup envfile.Parse default_iteration appConf [] ∅ ∅ in
  let bad := Setup envfile.Parse default_iteration appConf [] ∅ {[ APP_ENV := "Nasa" ]} in
  good.1.1 = None
  ∧ bad.1.1 ≠ None
  ∧ (good.1.1 = None
     ↔ Forall (λ f, ∃ envMap, godotenv.readFile envfile.Parse ∅ f = inr envMap) []
       ∧ ∀ name confVar ruleName rule,
           vars good.1.2 !! name = Some confVar → Rules confVar !! ruleName = Some rule →
           rule (Value confVar) = None).
Proof.
  intros appConf good bad. split; [vm_compute; reflexivity|].
  split; [vm_compute; discriminate|].
  apply (Setup_succeeds_iff envfile.Parse default_iteration appConf good.1.2 [] ∅ ∅ good.2).
  change (good = (good.1.1, good.1.2, good.2)).
  by rewrite <- !surjective_pairing.
Defined.

(** ** Validation of stores named like environment variables *)

Lemma app_space_inj (a b : string) : a +:+ " " = b +:+ " " → a = b.
Proof.
  revert b. induction a as [|x a IH]; intros [|y b] Heq; try done.
  - rewrite envfile_spec.app_cons in Heq. injection Heq as <- Heq. by destruct b.
  - rewrite envfile_spec.app_cons in Heq. injection Heq as -> Heq. by destruct a.
  - rewrite !envfile_spec.app_cons in Heq. injection Heq as -> Heq. by rewrite (IH b).
Qed.

(** Names without an equals sign render different error keys. *)
Lemma errorKey_inj (name other : string) (confVar otherVar : Variable_) :
  envfile.allBytes (envfile.notByte "=") name = true →
  envfile.allBytes (envfile.notByte "=") other = true →
  errorKey name confVar = errorKey other otherVar → name = other.
Proof.
  intros Hname Hother Hkey. unfold errorKey in Hkey.
  assert (∀ n v, envfile.allBytes (envfile.notByte "=") n = true →
                 envfile.cut "=" (n +:+ " = " +:+ v) = Some (n +:+ " ", " " +:+ v)) as Hcut.
  { intros n v Hn.
    assert (n +:+ " = " +:+ v = (n +:+ " ") +:+ String "="%char (" " +:+ v)) as ->.
    { by rewrite envfile_spec.app_assoc. }
    apply envfile_spec.cut_app. by rewrite envfile_spec.allBytes_app, Hn. }
  pose proof (Hcut name (Value confVar) Hname) as Hone.
  rewrite Hkey, (Hcut other (Value otherVar) Hother) in Hone.
  injection Hone as Hone _. symmetry. by apply app_space_inj.
Qed.

(** X6. In a store whose names hold no equals sign, as the names of
    environment variables do, [Validate] reports every rejecting rule: the
    error has an entry keyed ["<name> = <value>"] for the variable, which
    maps the rule's name to its message, and the error is the same in every
    order in which the maps are visited. *)
Theorem Validate_complete (order : iteration) (appConf : AppConfig) :
  (∀ name confVar, vars appConf !! name = Some confVar →
                   envfile.allBytes (envfile.notByte "=") name = true) →
  Validate order appConf = Validate default_iteration appConf
  ∧ ∀ name confVar ruleName rule msg,
      vars appConf !! name = Some confVar → Rules confVar !! ruleName = Some rule →
      rule (Value confVar) = Some msg →
      ∃ allErrors inner,
        Validate order appConf = Some (ValidationError allErrors)
        ∧ allErrors !! (name +:+ " = " +:+ Value confVar) = Some inner
        ∧ inner !! ruleName = Some msg.
Proof.
  intros Hnames.
  assert (∀ o name confVar,
            vars appConf !! name = Some confVar → ruleErrors confVar ≠ ∅ →
            collectErrors (range o (vars appConf)) !! errorKey name confVar
            = Some (ruleErrors confVar)) as Hexact.
  { intros o name confVar Hreg Hfail.
    apply collectErrors_exact; [by apply elem_of_range|done|].
    intros n v Hel%elem_of_range Hkey.
    assert (n = name) as ->; [|congruence].
    eapply errorKey_inj; [by eapply Hnames..|done]. }
  assert (∀ o o', collectErrors (range o (vars appConf))
                  = collectErrors (range o' (vars appConf))) as Horder.
  { assert (∀ o o' key inner,
              collectErrors (range o (vars appConf)) !! key = Some inner →
              collectErrors (range o' (vars appConf)) !! key = Some inner) as Hsub.
    { intros o o' key inner Hinner.
      destruct (collectErrors_sound _ _ _ Hinner) as (n & v & Hel%elem_of_range & -> & -> & Hne).
      by apply Hexact. }
    intros o o'. apply map_eq. intros key. apply option_eq. intros inner.
    split; apply Hsub. }
  split.
  - rewrite !Validate_result, (Horder order default_iteration). done.
  - intros name confVar ruleName rule msg Hreg Hrule Hmsg.
    assert (ruleErrors confVar !! ruleName = Some msg) as Hfails.
    { by rewrite ruleErrors_lookup, Hrule. }
    assert (ruleErrors confVar ≠ ∅) as Hne.
    { intros Hnone. by rewrite Hnone, lookup_empty in Hfails. }
    exists (collectErrors (range order (vars appConf))), (ruleErrors confVar).
    split; [|split; [by apply Hexact|done]].
    rewrite Validate_result, bool_decide_eq_false_2; [done|].
    intros Hempty. pose proof (Hexact order name confVar Hreg Hne) as Hentry.
    by rewrite Hempty, lookup_empty in Hentry.
Qed.

Lemma Validate_complete_witness :
  let appConf :=
    NewConfig (Some {[ APP_ENV := mkVariable "Nasa" "test" ""
                                    {[ "Required" := validation.Required;
                                       "Valid environment"
                                       := validation.In ValidEnvironments ]};
                       APP_PORT := mkVariable "" "8080" ""
                                     {[ "Required" := validation.Required ]} ]}) in
  (∀ name confVar, vars appConf !! name = Some confVar →
                   envfile.allBytes (envfile.notByte "=") name = true)
  ∧ ∃ allErrors inner,
      Validate default_iteration appConf = Some (ValidationError allErrors)
      ∧ allErrors !! "APP_PORT = " = Some inner
      ∧ inner !! "Required" = Some "cannot be blank".
Proof.
  intros appConf.
  assert (∀ name confVar, vars appConf !! name = Some confVar →
                          envfile.allBytes (envfile.notByte "=") name = true) as Hnames.
  { intros name confVar Hreg. simpl in Hreg.
    apply lookup_insert_Some in Hreg as [[<- _]|[_ Hreg]]; [reflexivity|].
    by apply lookup_singleton_Some in Hreg as [<- _]. }
  split; [exact Hnames|].
  destruct (Validate_complete default_iteration appConf Hnames) as [_ Hreport].
  apply (Hreport APP_PORT (mkVariable "" "8080" "" {[ "Required" := validation.Required ]})
           "Required" validation.Required "cannot be blank"); reflexivity.
Defined.

(** ** The sample file and the table *)

(** Sorting forgets the order of its input. *)
Lemma sortStrings_perm (l k : list string) : l ≡ₚ k → sortStrings l = sortStrings k.
Proof.
  intros Hperm. unfold sortStrings.
  apply (Sorted_unique String.le); [apply Sorted_merge_sort, _..|].
  by rewrite !merge_sort_Permutation.
Qed.

Lemma sortStrings_range {A} (order other : iteration) (m : gmap string A) :
  sortStrings (range order m).*1 = sortStrings (range other m).*1.
Proof. apply sortStrings_perm. by rewrite !range_perm. Qed.

(** X7. The sample file does not depend on the order in which the maps are
    visited: the names and the rule names are sorted before they are
    written, so any two visiting orders give the same rows and the same
    file contents; the same holds for the rows of the table. *)
Theorem sample_file_order_independent (order other : iteration) (appConf : AppConfig) :
  sampleData order appConf = sampleData other appConf
  ∧ sampleContents order appConf = sampleContents other appConf
  ∧ config_host.tableData order appConf = config_host.tableData other appConf.
Proof.
  assert (sampleData order appConf = sampleData other appConf) as Hdata.
  { unfold sampleData. rewrite (sortStrings_range order other).
    apply list_fmap_ext. intros _ key _. unfold sampleRow.
    destruct (vars appConf !! key); [|done].
    by rewrite (sortStrings_range order other). }
  split; [exact Hdata|]. split.
  - unfold sampleContents. by rewrite Hdata.
  - unfold config_host.tableData. rewrite (sortStrings_range order other).
    apply list_fmap_ext. intros _ key _. unfold config_host.tableRow.
    destruct (vars appConf !! key); [|done].
    by rewrite (sortStrings_range order other).
Qed.

Lemma sorted_names {A} (order : iteration) (m : gmap string A) :
  StronglySorted String.le (sortStrings (range order m).*1)
  ∧ NoDup (sortStrings (range order m).*1)
  ∧ ∀ name, name ∈ sortStrings (range order m).*1 ↔ is_Some (m !! name).
Proof.
  unfold sortStrings. split; [apply StronglySorted_merge_sort; apply _|]. split.
  - rewrite merge_sort_Permutation, range_perm. apply NoDup_fst_map_to_list.
  - intros name. rewrite merge_sort_Permutation, list_elem_of_fmap. split.
    + intros [[k v] [-> Hin%elem_of_range]]. by exists v.
    + intros [v Hv]. exists (name, v). split; [done|]. by apply elem_of_range.
Qed.

(** X8. The sample file and the table list every registered variable once,
    by ascending name: the names of the rows are sorted, without repetition,
    and are exactly the registered names. The row of a name holds, in the
    sample file, the name, its default value, its description and its rule
    names, sorted and joined by a comma and a blank; the row of the table
    holds the same four in the order name, description, rule names, default
    value. *)
Theorem rows_sorted_and_complete (order : iteration) (appConf : AppConfig) :
  ∃ names,
    StronglySorted String.le names
    ∧ NoDup names
    ∧ (∀ name, name ∈ names ↔ is_Some (vars appConf !! name))
    ∧ length (sampleData order appConf) = size (vars appConf)
    ∧ Forall2 (λ name row,
                 ∃ elem ruleNames,
                   vars appConf !! name = Some elem
                   ∧ StronglySorted String.le ruleNames
                   ∧ NoDup ruleNames
                   ∧ (∀ ruleName, ruleName ∈ ruleNames ↔ is_Some (Rules elem !! ruleName))
                   ∧ row = [name; DefaultValue elem; Description elem;
                            Join ruleNames ", "])
              names (sampleData order appConf)
    ∧ Forall2 (λ sampleRow tableRow,
                 ∃ name value description constraints,
                   sampleRow = [name; value; description; constraints]
                   ∧ tableRow = [name; description; constraints; value])
              (sampleData order appConf) (config_host.tableData order appConf).
Proof.
  destruct (sorted_names order (vars appConf)) as (Hsorted & Hnodup & Hnames).
  exists (sortStrings (range order (vars appConf)).*1).
  split; [done|]. split; [done|]. split; [done|].
  unfold sampleData, config_host.tableData. split; [|split].
  - rewrite length_fmap. unfold sortStrings.
    rewrite merge_sort_Permutation, length_fmap, range_perm.
    apply length_map_to_list.
  - apply Forall2_fmap_r, Forall_Forall2_diag, Forall_forall.
    intros name [elem Helem]%Hnames.
    exists elem, (sortStrings (range order (Rules elem)).*1).
    split; [exact Helem|].
    destruct (sorted_names order (Rules elem)) as (Hs & Hn & Hr).
    do 3 (split; [done|]). unfold sampleRow. by rewrite Helem.
  - apply Forall2_fmap, Forall_Forall2_diag, Forall_forall.
    intros name [elem Helem]%Hnames. do 4 eexists.
    unfold sampleRow, config_host.tableRow. rewrite Helem. split; reflexivity.
Qed.



(** ** Derived accessors *)

(** X10. The five environment predicates exclude one another: exactly one
    of them holds when the resolved [APP_ENV] is one of [ValidEnvironments],
    and none holds otherwise (in particular for an unregistered or empty
    [APP_ENV]). *)
Theorem environment_predicates_exclusive (appConf : AppConfig) :
  length (filter (λ b : bool, b = true)
                 [IsDev appConf; IsTest appConf; IsStaging appConf;
                  IsAcceptance appConf; IsProduction appConf])
  = (if bool_decide (Env appConf ∈ ValidEnvironments) then 1 else 0)%nat.
Proof.
  unfold IsDev, IsTest, IsStaging, IsAcceptance, IsProduction, Env.
  generalize (Get appConf APP_ENV). intros e.
  destruct (decide (e ∈ ValidEnvironments)) as [Hin|Hout].
  - rewrite (bool_decide_eq_true_2 _ Hin). literal_cases Hin; reflexivity.
  - rewrite (bool_decide_eq_false_2 _ Hout).
    assert (∀ name, name ∈ ValidEnvironments → bool_decide (e = name) = false) as Hno.
    { intros name Hname. apply bool_decide_eq_false_2. by intros ->. }
    rewrite !Hno by (apply (bool_decide_unpack _); exact I). reflexivity.
Qed.

(** X11. The tokens the [Truthy value] rule of the schemas admits are
    boolean literals of [strconv.ParseBool], but not all of them: a value
    passes [validation.In(TruthyValues...)] exactly when it is empty or is
    parsed without error and is neither [false] nor [False]. So debug mode
    never falls back silently on a validated non-empty value, and the two
    spellings [false] and [False] are rejected although they parse. *)
Theorem TruthyValues_are_ParseBool_literals (value : string) :
  validation.In TruthyValues value = None
  ↔ value = ""
    ∨ ((strconv.ParseBool value).2 = None ∧ value ≠ "false" ∧ value ≠ "False").
Proof.
  destruct (decide (value ∈ ["1"; "t"; "T"; "true"; "TRUE"; "True";
                             "0"; "f"; "F"; "false"; "FALSE"; "False"])) as [Hin|Hout].
  - literal_cases Hin; vm_compute; split;
      first [ by intros _; right | by intros [?|(_ & ? & ?)] | done ].
  - assert (value ∉ TruthyValues) as Hnot.
    { intros Hin. apply Hout. literal_cases Hin; apply (bool_decide_unpack _); exact I. }
    assert ((strconv.ParseBool value).2 ≠ None) as Herr.
    { unfold strconv.ParseBool.
      rewrite bool_decide_eq_false_2
        by (intros Hin; apply Hout; literal_cases Hin; apply (bool_decide_unpack _); exact I).
      rewrite bool_decide_eq_false_2
        by (intros Hin; apply Hout; literal_cases Hin; apply (bool_decide_unpack _); exact I).
      done. }
    unfold validation.In. case_bool_decide as Hempty; [by split; [left|]|].
    rewrite (bool_decide_eq_false_2 _ Hnot). split; [done|].
    by intros [?|[? _]].
Qed.

End config_more.

(** * Further properties of the logger *)
Module logger_more.
Import constants golang golang_spec logger logger_adapter logger_spec.

(** ** Sharing and copying of field maps *)

(** X12. [NewLogger] keeps the map it is given by reference: an assignment
    made through that reference after the logger was built shows in the
    entries the logger creates from then on, while the data of an entry
    created before is a copy and stays as it was. *)
Theorem NewLogger_shares_fields (env : gmap string string) (sinkLog : nat)
    (ref : positive) (h h' : store) (key : string) (v : value) :
  is_Some (h !! ref) →
  assign (Some ref) key v h = Some h' →
  let l := NewLogger env sinkLog (Some ref) in
  Data (Entry_ l h') = <[key := v]> (Data (Entry_ l h))
  ∧ Data (Entry_ l h') !! key = Some v
  ∧ ∀ other, other ≠ ref → h' !! other = h !! other.
Proof.
  intros [fields Hfields] [= <-] l. unfold Entry_, sinkWithFields. simpl.
  rewrite lookup_alter_eq, Hfields. simpl.
  split; [done|]. split; [by rewrite lookup_insert_eq|].
  intros other Hne. by rewrite lookup_alter_ne.
Qed.

Lemma NewLogger_shares_fields_witness :
  let fields : gmap string value :=
    {[ "Field1" := VString "Value1"; "Field2" := VInt 23 ]} in
  let h : store := {[ 1%positive := fields ]} in
  let h' : store :=
    {[ 1%positive := <["component" := VString "test-device"]> fields ]} in
  let l := NewLogger ∅ 0 (Some 1%positive) in
  is_Some (h !! 1%positive)
  ∧ assign (Some 1%positive) "component" (VString "test-device") h = Some h'
  ∧ Data (Entry_ l h) !! "component" = None
  ∧ Data (Entry_ l h') !! "component" = Some (VString "test-device").
Proof.
  intros fields h h' l.
  assert (is_Some (h !! 1%positive)) as Halloc by (by exists fields).
  assert (assign (Some 1%positive) "component" (VString "test-device") h = Some h')
    as Hassign by (vm_compute; reflexivity).
  split; [exact Halloc|]. split; [exact Hassign|]. split; [reflexivity|].
  exact (proj1 (proj2 (NewLogger_shares_fields ∅ 0 1%positive h h' "component"
                          (VString "test-device") Halloc Hassign))).
Defined.

(** X13. The fields of an entry: [WithFields] carries every default field
    and every supplied field, a supplied field winning over a default field
    of the same name; [WithField] is [WithFields] on the one-field map; and
    [Entry] carries exactly the default fields. *)
Theorem WithFields_precedence (l : Logger) (h : store) (fields : gmap string value) :
  (∀ key, Data (WithFields l h fields) !! key
          = match fields !! key with
            | Some v => Some v
            | None => Data (Entry_ l h) !! key
            end)
  ∧ (∀ key v, WithField l h key v = WithFields l h {[ key := v ]})
  ∧ Data (WithFields l h ∅) = Data (Entry_ l h)
  ∧ Data (Entry_ l h) = fieldsAt h (defaultFields l).
Proof.
  unfold WithFields, WithField, Entry_, entryWithFields, entryWithField, sinkWithFields.
  simpl. split; [|split; [|split]].
  - intros key. rewrite lookup_union. by destruct (fields !! key), (fieldsAt h _ !! key).
  - intros key v. by rewrite insert_union_singleton_l.
  - by rewrite (left_id_L ∅ (∪)).
  - done.
Qed.

(** What [NewComponentLogger] allocates and returns. *)
Lemma NewComponentLogger_result (order : iteration) (env : gmap string string)
    (parent : Logger) (componentName : string) (h : store) :
  NewComponentLogger order env parent componentName h
  = ({| log := log parent;
        defaultFields := Some (fresh (dom h));
        formatErrors := isFormatErrors env;
        gormConf := gormConf parent |},
     <[fresh (dom h) := <["component" := VString componentName]>
                          (fieldsAt h (defaultFields parent))]> h).
Proof.
  unfold NewComponentLogger. rewrite copy_entries. simpl. by destruct (gormConf parent).
Qed.

(** X14. A component logger does not inherit the format-errors toggle: it
    is read from the environment again when the component logger is derived,
    so it is the parent's only if [LOG_FORMAT_ERRORS] reads the same at both
    times. The sink and the adapter settings are inherited. *)
Theorem NewComponentLogger_rereads_toggle (order : iteration)
    (env envLater : gmap string string) (sinkLog : nat) (ref : option positive)
    (componentName : string) (h : store) :
  let parent := NewLogger env sinkLog ref in
  let child := (NewComponentLogger order envLater parent componentName h).1 in
  formatErrors parent = (strconv.ParseBool (os.Getenv env "LOG_FORMAT_ERRORS")).1
  ∧ formatErrors child = (strconv.ParseBool (os.Getenv envLater "LOG_FORMAT_ERRORS")).1
  ∧ log child = log parent
  ∧ gormConf child = gormConf parent.
Proof. intros parent child. unfold child. by rewrite NewComponentLogger_result. Qed.

(** X15. Deriving a component of a component: the second name replaces the
    first, so the fields of the inner logger are those a logger derived
    directly from the root with the second name has; the fields of the root
    and of the outer component logger are left as they were, and the adapter
    settings of the root are handed down. *)
Theorem NewComponentLogger_nested (order : iteration) (env envLater : gmap string string)
    (root outer inner : Logger) (outerName innerName : string) (h h1 h2 : store) :
  (∀ r, defaultFields root = Some r → is_Some (h !! r)) →
  NewComponentLogger order env root outerName h = (outer, h1) →
  NewComponentLogger order envLater outer innerName h1 = (inner, h2) →
  fieldsAt h2 (defaultFields inner)
  = <["component" := VString innerName]> (fieldsAt h (defaultFields root))
  ∧ fieldsAt h2 (defaultFields outer)
    = <["component" := VString outerName]> (fieldsAt h (defaultFields root))
  ∧ fieldsAt h2 (defaultFields root) = fieldsAt h (defaultFields root)
  ∧ gormConf inner = gormConf root
  ∧ log inner = log root.
Proof.
  intros Halloc. rewrite !NewComponentLogger_result. intros [= <- <-] [= <- <-]. simpl.
  set (r1 := fresh (dom h)).
  set (fields1 := <["component" := VString outerName]> (fieldsAt h (defaultFields root))).
  set (r2 := fresh (dom (<[r1 := fields1]> h))).
  assert (h !! r1 = None) as Hr1 by apply not_elem_of_dom, is_fresh.
  assert ((<[r1 := fields1]> h) !! r2 = None) as Hr2 by apply not_elem_of_dom, is_fresh.
  assert (r2 ≠ r1) as Hne.
  { intros Heq. by rewrite Heq, lookup_insert_eq in Hr2. }
  rewrite !lookup_insert_eq. simpl.
  rewrite lookup_insert_ne, lookup_insert_eq by done. simpl.
  split; [unfold fields1; by rewrite insert_insert_eq|]. split; [done|]. split; [|done].
  destruct (defaultFields root) as [r|] eqn:Hroot; [|done]. simpl.
  destruct (Halloc r eq_refl) as [m Hm].
  assert (r ≠ r1) as Hr by (intros Heq; rewrite Heq in Hm; congruence).
  assert (r ≠ r2) as Hr'.
  { intros Heq. rewrite <- Heq, lookup_insert_ne in Hr2 by done. congruence. }
  by rewrite !lookup_insert_ne.
Qed.

Lemma NewComponentLogger_nested_witness :
  let h : store := {[ 1%positive := {[ "service" := VString "api" ]} ]} in
  let root := NewLogger ∅ 0 (Some 1%positive) in
  let first := NewComponentLogger default_iteration ∅ root "storage" h in
  let second := NewComponentLogger default_iteration ∅ first.1 "GORM" first.2 in
  (∀ r, defaultFields root = Some r → is_Some (h !! r))
  ∧ fieldsAt second.2 (defaultFields second.1)
    = <["component" := VString "GORM"]> (fieldsAt h (defaultFields root))
  ∧ fieldsAt second.2 (defaultFields first.1)
    = <["component" := VString "storage"]> (fieldsAt h (defaultFields root)).
Proof.
  intros h root first second.
  assert (∀ r, defaultFields root = Some r → is_Some (h !! r)) as Halloc.
  { intros r [= <-]. by eexists. }
  split; [exact Halloc|].
  destruct (NewComponentLogger_nested default_iteration ∅ ∅ root first.1 second.1
              "storage" "GORM" h first.2 second.2 Halloc) as (Hinner & Houter & _).
  - change (first = (first.1, first.2)). by rewrite <- surjective_pairing.
  - change (second = (second.1, second.2)). by rewrite <- surjective_pairing.
  - split; [exact Hinner|exact Houter].
Defined.

(** ** The error field on one line *)

(** X16. With error formatting on, the error field of an error that wraps a
    cause holds neither a line feed nor a tab, and formatting it again would
    change nothing; the message of an error without a cause is passed on as
    it is, line feeds included, also with formatting on. *)
Theorem parseError_one_line (l : Logger) (e : errors.error) :
  formatErrors l = true →
  (∀ cause, errors.Unwrap e = Some cause →
     Forall (λ c, c ≠ LF ∧ c ≠ TAB) (list_ascii_of_string (parseError l (Some e)))
     ∧ removeTabs (replaceNewlines (parseError l (Some e))) = parseError l (Some e))
  ∧ (errors.Unwrap e = None → parseError l (Some e) = errors.Error e).
Proof.
  intros Hformat. unfold parseError. rewrite Hformat. split.
  - intros cause ->. rewrite !removeTabs_replaceNewlines.
    split; [apply oneLine_flat|]. apply oneLine_id, oneLine_flat.
  - by intros ->.
Qed.

Lemma parseError_one_line_witness :
  let l := NewLogger {[ "LOG_FORMAT_ERRORS" := "1" ]} 0 None in
  let plain := errors.New ("first line" +:+ errors.LF +:+ "second line") [] in
  let wrapped := errors.Wrap plain "Cannot get something" [] in
  formatErrors l = true
  ∧ parseError l (Some plain) = "first line" +:+ errors.LF +:+ "second line"
  ∧ parseError l (Some wrapped) = "first line --- second line --- Cannot get something".
Proof.
  intros l plain wrapped.
  assert (formatErrors l = true) as Hformat by reflexivity.
  split; [exact Hformat|]. split.
  - exact (proj2 (parseError_one_line l plain Hformat) eq_refl).
  - reflexivity.
Defined.

(** ** Loggers built from a configuration *)

(** X17. The common logger built from a configuration store: the level of
    its sink is the store's [LogrusLogLevel] and the caller is reported
    exactly in debug mode; the text formatter is chosen exactly when
    [APP_LOG_DEV] is a true boolean literal; the default fields are the four
    fields [service], [version], [env] and [host], in a map of their own;
    the adapter logs errors only for the levels panic, fatal and error,
    warnings and errors for warn, and everything otherwise. The
    format-errors toggle comes from the environment variable
    [LOG_FORMAT_ERRORS] and not from the store, whose
    [APP_LOG_FORMAT_ERRORS] is not read. *)
Theorem NewCommonLoggerFromConfiguration_settings
    (ParseLevel : string → option logrus.Level) (env : gmap string string)
    (sinkLog : nat) (serviceName serviceVersion : string)
    (appConf : config.AppConfig) (hostname : option string) (h : store) :
  let built :=
    NewCommonLoggerFromConfiguration ParseLevel env sinkLog serviceName serviceVersion
      (config.Get appConf) (config_host.Hostname appConf env hostname) h in
  let l := built.1.1 in
  let settings := built.1.2 in
  sinkLevel settings = config.LogrusLogLevel ParseLevel appConf
  ∧ sinkReportCaller settings = config.IsDebug appConf
  ∧ (sinkFormatter settings = BasicTextFormatter
     ↔ config.Get appConf APP_LOG_DEV ∈ ["1"; "t"; "T"; "true"; "TRUE"; "True"])
  ∧ fieldsAt built.2 (defaultFields l)
    = {[ "service" := VString serviceName; "version" := VString serviceVersion;
         "env" := VString (config.Env appConf);
         "host" := VString (config_host.GetHostName env hostname) ]}
  ∧ size (fieldsAt built.2 (defaultFields l)) = 4%nat
  ∧ (∀ r, is_Some (h !! r) → built.2 !! r = h !! r)
  ∧ LogLevel (gormConf l)
    = match config.LogrusLogLevel ParseLevel appConf with
      | logrus.PanicLevel | logrus.FatalLevel | logrus.ErrorLevel => GormError
      | logrus.WarnLevel => GormWarn
      | _ => GormInfo
      end
  ∧ formatErrors l = (strconv.ParseBool (os.Getenv env "LOG_FORMAT_ERRORS")).1.
Proof.
  intros built l settings.
  unfold built, l, settings, NewCommonLoggerFromConfiguration, config.LogrusLogLevel,
    config.IsDebug, config.Env, config_host.Hostname. simpl.
  split; [done|]. split; [done|]. split.
  { rewrite <- config_spec.ParseBool_true.
    by destruct (strconv.ParseBool (config.Get appConf APP_LOG_DEV)).1. }
  rewrite lookup_insert_eq. simpl. split.
  { apply map_eq. intros key.
    destruct (decide (key = "host")) as [->|Hhost]; [reflexivity|].
    destruct (decide (key = "env")) as [->|Henv]; [reflexivity|].
    destruct (decide (key = "version")) as [->|Hversion]; [reflexivity|].
    destruct (decide (key = "service")) as [->|Hservice]; [reflexivity|].
    rewrite !lookup_insert_ne, lookup_empty, lookup_singleton_ne by done. done. }
  split; [reflexivity|]. split.
  { intros r [m Hm]. rewrite lookup_insert_ne; [done|].
    intros <-. pose proof (is_fresh (dom h)) as Hfresh.
    apply not_elem_of_dom in Hfresh. congruence. }
  split; [|done].
  by destruct (ParseLevel (config.Get appConf APP_LOG_LEVEL)) as [[]|].
Qed.

(** ** The ORM adapter *)

Lemma breakAt_app (c : ascii) (before after : string) :
  envfile.allBytes (envfile.notByte c) before = true →
  breakAt c (before +:+ String c after) = (before, String c after).
Proof.
  induction before as [|x before IH].
  - intros _. change (breakAt c (String c after) = ("", String c after)).
    simpl. by rewrite Ascii.eqb_refl.
  - intros Hall. cbn [envfile.allBytes] in Hall. apply andb_true_iff in Hall as [Hx Hb].
    unfold envfile.notByte in Hx. apply negb_true_iff in Hx.
    rewrite envfile_spec.app_cons. cbn [breakAt]. by rewrite Hx, (IH Hb).
Qed.

(** The first bracketed group of a message that has no opening bracket
    before it. *)
Lemma firstInBrackets_app (before tag after : string) :
  envfile.allBytes (envfile.notByte "[") before = true →
  tag ≠ "" → envfile.allBytes (envfile.notByte "]") tag = true →
  firstInBrackets (before +:+ "[" +:+ tag +:+ "]" +:+ after) = Some tag.
Proof.
  intros Hbefore Htag Hclose. induction before as [|x before IH].
  - change (firstInBrackets (String "[" (tag +:+ String "]" after)) = Some tag).
    cbn [firstInBrackets]. rewrite Ascii.eqb_refl, (breakAt_app _ _ _ Hclose).
    by destruct tag.
  - cbn [envfile.allBytes] in Hbefore. apply andb_true_iff in Hbefore as [Hx Hb].
    unfold envfile.notByte in Hx. apply negb_true_iff in Hx.
    rewrite envfile_spec.app_cons. cbn [firstInBrackets]. by rewrite Hx, (IH Hb).
Qed.

Lemma firstInBrackets_none (msg : string) :
  envfile.allBytes (envfile.notByte "[") msg = true → firstInBrackets msg = None.
Proof.
  induction msg as [|x msg IH]; [done|].
  intros Hall. cbn [envfile.allBytes] in Hall. apply andb_true_iff in Hall as [Hx Hm].
  unfold envfile.notByte in Hx. apply negb_true_iff in Hx.
  cbn [firstInBrackets]. by rewrite Hx, (IH Hm).
Qed.

Lemma cutPrefix_app (old rest : string) : cutPrefix old (old +:+ rest) = Some rest.
Proof.
  induction old as [|x old IH]; [by destruct rest|].
  rewrite envfile_spec.app_cons. cbn [cutPrefix]. by rewrite Ascii.eqb_refl.
Qed.

Lemma removeFirst_cons (old : string) (x : ascii) (msg : string) :
  removeFirst old (String x msg)
  = match cutPrefix old (String x msg) with
    | Some tail => tail
    | None => String x (removeFirst old msg)
    end.
Proof. reflexivity. Qed.

(** Removing a tag that starts with an opening bracket from a message that
    has no opening bracket before it. *)
Lemma removeFirst_app (old before rest : string) :
  envfile.allBytes (envfile.notByte "[") before = true →
  removeFirst (String "[" old) (before +:+ String "[" old +:+ rest) = before +:+ rest.
Proof.
  intros Hbefore. induction before as [|x before IH].
  - change (removeFirst (String "[" old) (String "[" (old +:+ rest)) = rest).
    rewrite removeFirst_cons. cbn [cutPrefix].
    by rewrite Ascii.eqb_refl, cutPrefix_app.
  - cbn [envfile.allBytes] in Hbefore. apply andb_true_iff in Hbefore as [Hx Hb].
    unfold envfile.notByte in Hx. apply negb_true_iff in Hx.
    rewrite !envfile_spec.app_cons, removeFirst_cons. cbn [cutPrefix].
    rewrite Ascii.eqb_sym, Hx. by rewrite <- envfile_spec.app_cons, (IH Hb).
Qed.

Lemma removeFirst_absent (old msg : string) :
  envfile.allBytes (envfile.notByte "[") msg = true →
  removeFirst (String "[" old) msg = msg.
Proof.
  induction msg as [|x msg IH]; [done|].
  intros Hall. cbn [envfile.allBytes] in Hall. apply andb_true_iff in Hall as [Hx Hm].
  unfold envfile.notByte in Hx. apply negb_true_iff in Hx.
  rewrite removeFirst_cons. cbn [cutPrefix]. rewrite Ascii.eqb_sym, Hx. by rewrite (IH Hm).
Qed.

(** X18. How [Printf] routes a driver message. The severity is read from
    the first bracketed group: for a message with no opening bracket before
    the tag, [[error] ] logs at the error level and [[warn] ] at the warn
    level, each with the tag and its blank removed and the rest of the
    message intact, whatever brackets follow; [[info] ] likewise at the info
    level; a message without an opening bracket is logged unchanged at the
    info level. Every record carries the logger's default fields. *)
Theorem Printf_routes (l : Logger) (h : store) (before rest : string) :
  envfile.allBytes (envfile.notByte "[") before = true →
  Printf l h (before +:+ "[error] " +:+ rest)
  = {| loggedLevel := logrus.ErrorLevel; loggedFormat := before +:+ rest;
       loggedData := fieldsAt h (defaultFields l) |}
  ∧ Printf l h (before +:+ "[warn] " +:+ rest)
    = {| loggedLevel := logrus.WarnLevel; loggedFormat := before +:+ rest;
         loggedData := fieldsAt h (defaultFields l) |}
  ∧ Printf l h (before +:+ "[info] " +:+ rest)
    = {| loggedLevel := logrus.InfoLevel; loggedFormat := before +:+ rest;
         loggedData := fieldsAt h (defaultFields l) |}
  ∧ Printf l h before
    = {| loggedLevel := logrus.InfoLevel; loggedFormat := before;
         loggedData := fieldsAt h (defaultFields l) |}.
Proof.
  intros Hbefore.
  assert (∀ tag, tag ≠ "" → envfile.allBytes (envfile.notByte "]") tag = true →
                 getLogLevelFromGormMsg (before +:+ "[" +:+ tag +:+ "] " +:+ rest)
                 = (if bool_decide (tag = "error") then LOG_LEVEL_ERROR
                    else if bool_decide (tag = "warn") then LOG_LEVEL_WARN
                    else LOG_LEVEL_INFO)) as Hlevel.
  { intros tag Htag Hclose. unfold getLogLevelFromGormMsg.
    change (before +:+ "[" +:+ tag +:+ "] " +:+ rest)
      with (before +:+ "[" +:+ tag +:+ "]" +:+ (" " +:+ rest)).
    by rewrite (firstInBrackets_app _ _ _ Hbefore Htag Hclose). }
  assert (getLogLevelFromGormMsg (before +:+ "[error] " +:+ rest) = LOG_LEVEL_ERROR)
    as Herror by (by apply (Hlevel "error")).
  assert (getLogLevelFromGormMsg (before +:+ "[warn] " +:+ rest) = LOG_LEVEL_WARN)
    as Hwarn by (by apply (Hlevel "warn")).
  assert (getLogLevelFromGormMsg (before +:+ "[info] " +:+ rest) = LOG_LEVEL_INFO)
    as Hinfo by (by apply (Hlevel "info")).
  unfold Printf. rewrite Herror, Hwarn, Hinfo. simpl.
  split; [|split; [|split]].
  - by rewrite (removeFirst_app "error] " _ _ Hbefore).
  - by rewrite (removeFirst_app "warn] " _ _ Hbefore).
  - by rewrite (removeFirst_app "info] " _ _ Hbefore).
  - unfold getLogLevelFromGormMsg. rewrite (firstInBrackets_none _ Hbefore). simpl.
    by rewrite (removeFirst_absent _ _ Hbefore).
Qed.

Lemma Printf_routes_witness :
  let l := NewLogger ∅ 0 None in
  envfile.allBytes (envfile.notByte "[") "%s " = true
  ∧ Printf l ∅ "%s [error] %s [warn]"
    = {| loggedLevel := logrus.ErrorLevel; loggedFormat := "%s %s [warn]";
         loggedData := ∅ |}
  ∧ Printf l ∅ "[trace] %s"
    = {| loggedLevel := logrus.InfoLevel; loggedFormat := "[trace] %s";
         loggedData := ∅ |}.
Proof.
  intros l.
  assert (envfile.allBytes (envfile.notByte "[") "%s " = true) as Hbefore by reflexivity.
  split; [exact Hbefore|]. split.
  - exact (proj1 (Printf_routes l ∅ "%s " "%s [warn]" Hbefore)).
  - reflexivity.
Defined.

(** X19. Every record written through the adapter [NewGormLogger] returns
    carries the component name beside the default fields of the logger it
    was made from, and the adapter has the threshold and the level of that
    logger. *)
Theorem NewGormLogger_records (order : iteration) (env : gmap string string)
    (l adapterLog : Logger) (adapterConf : gormConfig) (componentName : string)
    (h h' : store) :
  NewGormLogger order env l componentName h = (adapterLog, adapterConf, h') →
  adapterConf = gormConf l
  ∧ ∀ format,
      loggedData (Printf adapterLog h' format)
      = <["component" := VString componentName]> (fieldsAt h (defaultFields l)).
Proof.
  unfold NewGormLogger. rewrite NewComponentLogger_result. intros [= <- <- <-].
  split; [done|]. intros format. unfold Printf, Entry_, sinkWithFields.
  by repeat case_bool_decide; simpl; rewrite lookup_insert_eq.
Qed.

Lemma NewGormLogger_records_witness :
  let h : store := {[ 1%positive := {[ "service" := VString "api" ]} ]} in
  let l := NewLogger ∅ 0 (Some 1%positive) in
  let adapter := NewGormLogger default_iteration ∅ l "GORM" h in
  adapter.1.2 = gormConf l
  ∧ loggedData (Printf adapter.1.1 adapter.2 "[error] %s")
    = {[ "service" := VString "api"; "component" := VString "GORM" ]}.
Proof.
  intros h l adapter.
  destruct (NewGormLogger_records default_iteration ∅ l adapter.1.1 adapter.1.2 "GORM"
              h adapter.2) as [Hconf Hdata].
  - change (adapter = (adapter.1.1, adapter.1.2, adapter.2)).
    by rewrite <- !surjective_pairing.
  - split; [exact Hconf|]. rewrite Hdata. vm_compute. reflexivity.
Defined.

End logger_more.
